(** * mega.py: the cryptographic core ([src/mega/crypto.py])

    A shallow embedding of the word codec, the AES-CBC wrappers, the key
    derivation and key wrapping functions, the attribute codec, the MPI
    decoder, the extended Euclid / modular inverse pair, the chunk
    planner, the URL-safe base64 codec and the identifier generator,
    followed by the properties established about them.

    Conventions.
    - A Python [bytes] value is a [list byte]; a Python [str] is a list of
      code points ([pystr]); an "a32" word array is a [list Z] (Python ints
      are unbounded, the 32-bit range is enforced where [struct.pack] does).
    - A Python call either returns or raises: [result A] carries the raised
      exception, and [x <- e ;; k] sequences calls left to right, the way
      Python evaluates arguments and statements.
    - The AES block cipher (PyCryptodome) and the [json] module are libraries
      outside the repository: the raw 16-byte block permutation and the JSON
      printer and parser are section variables, and so is the random source
      of [make_id].
    - The interpreter bounds the depth of Python calls: the one recursive
      function, [extended_gcd], takes the number of frames it may still
      use and raises [RecursionError] without one. *)

From Stdlib Require Import String Ascii.
From Stdlib Require Import Strings.Byte.
From Stdlib Require Import ZArith NArith List Lia Bool.
From Stdlib Require Import DecimalString.
From Equations Require Import Equations.
Import ListNotations.

Local Open Scope Z_scope.

(** ** Exceptions and the result monad *)

Inductive exn : Type :=
| ValueError (msg : string)
| UnicodeEncodeError          (* subclass of ValueError *)
| JSONDecodeError             (* json.JSONDecodeError, subclass of ValueError *)
| StructError                 (* struct.error *)
| IndexError
| ZeroDivisionError
| RecursionError
| Exception (msg : string).

(** [isinstance(e, ValueError)], following Python's exception hierarchy. *)
Definition is_ValueError (e : exn) : bool :=
  match e with
  | ValueError _ | UnicodeEncodeError | JSONDecodeError => true
  | _ => false
  end.

Definition is_JSONDecodeError (e : exn) : bool :=
  match e with
  | JSONDecodeError => true
  | _ => false
  end.

Inductive result (A : Type) : Type :=
| Ok (a : A)
| Err (e : exn).
Arguments Ok {A} a.
Arguments Err {A} e.

Definition bind {A B : Type} (m : result A) (k : A -> result B) : result B :=
  match m with
  | Ok a => k a
  | Err e => Err e
  end.

Notation "x <- m ;; k" := (bind m (fun x => k))
  (at level 61, m at next level, right associativity).

Definition raises {A : Type} (m : result A) : Prop :=
  exists e, m = Err e.

Definition returns {A : Type} (m : result A) : Prop :=
  exists a, m = Ok a.

(** [try: body except (cls...): handler], where [caught] decides whether the
    raised exception is an instance of one of the listed classes. *)
Definition try_except {A : Type} (body : result A) (caught : exn -> bool)
  (handler : result A) : result A :=
  match body with
  | Ok a => Ok a
  | Err e => if caught e then handler else Err e
  end.

(** [for x in xs: acc = body(acc, x)], stopping at the first exception. *)
Fixpoint for_each {A S : Type} (xs : list A) (body : S -> A -> result S)
  (acc : S) : result S :=
  match xs with
  | [] => Ok acc
  | x :: rest => acc' <- body acc x ;; for_each rest body acc'
  end.

(** [for r in range(n): acc = body(acc)] for a loop variable the body does
    not read; the counter is binary so that 0x10000 rounds stay tractable. *)
Definition repeat_rounds {S : Type} (n : N) (body : S -> result S)
  (acc : S) : result S :=
  N.iter n (fun m => bind m body) (Ok acc).

(** [range(start, stop, step)] for [start <= stop] and a positive step. *)
Definition range_step (start stop step : nat) : list nat :=
  map (fun k => (start + k * step)%nat)
      (seq 0 ((stop - start + (step - 1)) / step)%nat).

(** The slice [a[i:j]]. *)
Definition slice {A : Type} (a : list A) (i j : nat) : list A :=
  firstn (j - i) (skipn i a).

(** ** Bytes, strings and words *)

Definition bytes : Type := list byte.
Definition pystr : Type := list N.
Definition a32 : Type := list Z.

(** A string literal of the source as code points. *)
Definition lit (s : string) : pystr :=
  map (fun c => N_of_ascii c) (list_ascii_of_string s).

(** [codecs.latin_1_encode(x)[0]]: fails on a code point above 255. *)
Fixpoint makebyte (x : pystr) : result bytes :=
  match x with
  | [] => Ok []
  | c :: rest =>
      match Byte.of_N c with
      | Some b => bs <- makebyte rest ;; Ok (b :: bs)
      | None => Err UnicodeEncodeError
      end
  end.

(** [codecs.latin_1_decode(x)[0]]. *)
Definition makestring (x : bytes) : pystr := map Byte.to_N x.

Definition byte_to_Z (b : byte) : Z := Z.of_N (Byte.to_N b).

Definition byte_of_Z (z : Z) : byte :=
  match Byte.of_N (Z.to_N (z mod 256)) with
  | Some b => b
  | None => x00
  end.

Definition word32 (w : Z) : Prop := 0 <= w < 2 ^ 32.

Definition word32b (w : Z) : bool := (0 <=? w) && (w <? 2 ^ 32).

(** One ['>I'] field: four bytes, most significant first. *)
Definition pack_word (w : Z) : bytes :=
  [ byte_of_Z (Z.shiftr w 24); byte_of_Z (Z.shiftr w 16);
    byte_of_Z (Z.shiftr w 8); byte_of_Z w ].

Definition unpack_word (b0 b1 b2 b3 : byte) : Z :=
  Z.lor (Z.shiftl (byte_to_Z b0) 24)
    (Z.lor (Z.shiftl (byte_to_Z b1) 16)
       (Z.lor (Z.shiftl (byte_to_Z b2) 8) (byte_to_Z b3))).

(** [struct.pack('>%dI' % len(a), *a)]: [struct.error] on an item outside
    the unsigned 32-bit range. *)
Fixpoint a32_to_str (a : a32) : result bytes :=
  match a with
  | [] => Ok []
  | w :: rest =>
      if word32b w
      then bs <- a32_to_str rest ;; Ok (pack_word w ++ bs)
      else Err StructError
  end.

(** [struct.unpack('>%dI' % (len(b) // 4), b)] on a buffer whose length is a
    multiple of 4. *)
Fixpoint unpack_words (b : bytes) : a32 :=
  match b with
  | b0 :: b1 :: b2 :: b3 :: rest => unpack_word b0 b1 b2 b3 :: unpack_words rest
  | _ => []
  end.

Inductive str_or_bytes : Type :=
| Str (s : pystr)
| Bytes (b : bytes).

Definition str_to_a32 (b : str_or_bytes) : result a32 :=
  b <- match b with
       | Str s => makebyte s
       | Bytes b => Ok b
       end ;;
  let b := if (Nat.eqb (length b mod 4) 0)
           then b
           else b ++ repeat x00 (4 - length b mod 4) in
  Ok (unpack_words b).

(** ** Base64 (the standard library's [base64.b64encode]) *)

Definition b64_char (i : Z) : byte :=
  byte_of_Z (if i <? 26 then 65 + i
             else if i <? 52 then 97 + (i - 26)
             else if i <? 62 then 48 + (i - 52)
             else if i =? 62 then 43 else 47).

Definition b64_pad : byte := byte_of_Z 61.

Fixpoint b64encode (data : bytes) : bytes :=
  match data with
  | [] => []
  | [b0] =>
      let n := Z.shiftl (byte_to_Z b0) 16 in
      [ b64_char (Z.shiftr n 18); b64_char (Z.land (Z.shiftr n 12) 63);
        b64_pad; b64_pad ]
  | [b0; b1] =>
      let n := Z.lor (Z.shiftl (byte_to_Z b0) 16) (Z.shiftl (byte_to_Z b1) 8) in
      [ b64_char (Z.shiftr n 18); b64_char (Z.land (Z.shiftr n 12) 63);
        b64_char (Z.land (Z.shiftr n 6) 63); b64_pad ]
  | b0 :: b1 :: b2 :: rest =>
      let n := Z.lor (Z.shiftl (byte_to_Z b0) 16)
                 (Z.lor (Z.shiftl (byte_to_Z b1) 8) (byte_to_Z b2)) in
      b64_char (Z.shiftr n 18) :: b64_char (Z.land (Z.shiftr n 12) 63)
        :: b64_char (Z.land (Z.shiftr n 6) 63) :: b64_char (Z.land n 63)
        :: b64encode rest
  end.

(** [data.replace(search, replace)] for a one-character [search]. *)
Definition replace (data : pystr) (search : N) (repl : pystr) : pystr :=
  flat_map (fun c => if N.eqb c search then repl else [c]) data.

Definition base64_url_encode (data : bytes) : pystr :=
  let data := b64encode data in
  let data := makestring data in
  fold_left (fun data sr => replace data (fst sr) (snd sr))
    [ (43%N, [45%N]); (47%N, [95%N]); (61%N, []) ] data.

Definition a32_to_base64 (a : a32) : result pystr :=
  b <- a32_to_str a ;; Ok (base64_url_encode b).

(** ** Small list helpers used by the loops *)

(** [l[i] = v] for an index inside the list. *)
Fixpoint list_set {A : Type} (l : list A) (i : nat) (v : A) : list A :=
  match l, i with
  | [], _ => []
  | _ :: rest, O => v :: rest
  | x :: rest, S i' => x :: list_set rest i' v
  end.

(** [l[i]], raising [IndexError] outside the list. *)
Definition index {A : Type} (l : list A) (i : nat) : result A :=
  match nth_error l i with
  | Some x => Ok x
  | None => Err IndexError
  end.

(** [s.rstrip(c)] for a one-character [c]. *)
Fixpoint rstrip (s : pystr) (c : N) : pystr :=
  match s with
  | [] => []
  | x :: rest =>
      match rstrip rest c with
      | [] => if N.eqb x c then [] else [x]
      | r => x :: r
      end
  end.

Definition pystr_eqb (s t : pystr) : bool :=
  if list_eq_dec N.eq_dec s t then true else false.

(** ** The cipher layer *)

Section Crypto.

(** The raw AES block permutation of the cipher library and its inverse:
    key bytes, one 16-byte block, one 16-byte block out. *)
Variable aes_encrypt_block : bytes -> bytes -> bytes.
Variable aes_decrypt_block : bytes -> bytes -> bytes.

Definition byte_xor (x y : byte) : byte :=
  byte_of_Z (Z.lxor (byte_to_Z x) (byte_to_Z y)).

Definition xor_block (a b : bytes) : bytes :=
  map (fun xy => byte_xor (fst xy) (snd xy)) (combine a b).

(** CBC chaining over [n] consecutive 16-byte blocks of [data]. *)
Fixpoint cbc_encrypt_blocks (n : nat) (key prev data : bytes) : bytes :=
  match n with
  | O => []
  | S n' =>
      let c := aes_encrypt_block key (xor_block (firstn 16 data) prev) in
      c ++ cbc_encrypt_blocks n' key c (skipn 16 data)
  end.

Fixpoint cbc_decrypt_blocks (n : nat) (key prev data : bytes) : bytes :=
  match n with
  | O => []
  | S n' =>
      let c := firstn 16 data in
      xor_block (aes_decrypt_block key c) prev
        ++ cbc_decrypt_blocks n' key c (skipn 16 data)
  end.

Definition AES_key_size_ok (key : bytes) : bool :=
  Nat.eqb (length key) 16 || Nat.eqb (length key) 24
  || Nat.eqb (length key) 32.

(** [AES.new(key, AES.MODE_CBC, iv)]: the library accepts 16, 24 and
    32-byte keys and a 16-byte IV, and raises [ValueError] otherwise (the
    key is checked first; the message texts are abridged). The cipher
    object is the pair of the key and the IV. *)
Definition AES_new (key iv : bytes) : result (bytes * bytes) :=
  if negb (AES_key_size_ok key)
  then Err (ValueError "Incorrect AES key length")
  else if negb (Nat.eqb (length iv) 16)
  then Err (ValueError "Incorrect IV length (it must be 16 bytes long)")
  else Ok (key, iv).

(** [cipher.encrypt(data)] / [cipher.decrypt(data)] in CBC mode: the
    library does not pad. *)
Definition AES_encrypt (cipher : bytes * bytes) (data : bytes) : result bytes :=
  if negb (Nat.eqb (length data mod 16) 0)
  then Err (ValueError "Data must be padded to 16 byte boundary in CBC mode")
  else Ok (cbc_encrypt_blocks (length data / 16) (fst cipher) (snd cipher) data).

Definition AES_decrypt (cipher : bytes * bytes) (data : bytes) : result bytes :=
  if negb (Nat.eqb (length data mod 16) 0)
  then Err (ValueError "Data must be padded to 16 byte boundary in CBC mode")
  else Ok (cbc_decrypt_blocks (length data / 16) (fst cipher) (snd cipher) data).

Definition aes_cbc_encrypt (data key : bytes) : result bytes :=
  if negb (Nat.eqb (length key) 32)
  then Err (ValueError "Key must be 32 bytes long")
  else
    iv <- makebyte (repeat 0%N 16) ;;
    aes_cipher <- AES_new key iv ;;
    AES_encrypt aes_cipher data.

Definition aes_cbc_decrypt (data key : bytes) : result bytes :=
  if negb (Nat.eqb (length key) 32)
  then Err (ValueError "Key must be 32 bytes long")
  else
    iv <- makebyte (repeat 0%N 16) ;;
    aes_cipher <- AES_new key iv ;;
    AES_decrypt aes_cipher data.

Definition aes_cbc_encrypt_a32 (data key : a32) : result a32 :=
  if negb (Nat.eqb (length key) 4)
  then Err (ValueError "Key must be 4 integers long")
  else
    d <- a32_to_str data ;;
    k <- a32_to_str key ;;
    c <- aes_cbc_encrypt d k ;;
    str_to_a32 (Bytes c).

Definition aes_cbc_decrypt_a32 (data key : a32) : result a32 :=
  if negb (Nat.eqb (length key) 4)
  then Err (ValueError "Key must be 4 integers long")
  else
    d <- a32_to_str data ;;
    k <- a32_to_str key ;;
    c <- aes_cbc_decrypt d k ;;
    str_to_a32 (Bytes c).

(** *** Key derivation *)

(** The folding loop of [stringhash]: [h32[i % 4] ^= s32[i]]. *)
Definition fold_words (s32 : a32) : a32 :=
  fold_left
    (fun h32 i =>
       list_set h32 (i mod 4)%nat (Z.lxor (nth (i mod 4)%nat h32 0) (nth i s32 0)))
    (seq 0 (length s32)) [0; 0; 0; 0].

Definition stringhash (str : pystr) (aeskey : a32) : result pystr :=
  if negb (Nat.eqb (length aeskey) 4)
  then Err (ValueError "AES key must be 4 integers long")
  else
    s32 <- str_to_a32 (Str str) ;;
    let h32 := fold_words s32 in
    h32 <- repeat_rounds 0x4000 (fun h32 => aes_cbc_encrypt_a32 h32 aeskey) h32 ;;
    h0 <- index h32 0 ;;
    h2 <- index h32 2 ;;
    a32_to_base64 [h0; h2].

Definition pkey_init : a32 := [0x93C467E3; 0x7DB0C7A4; 0xD1BE3F81; 0x0152CB56].

(** The inner [for i in range(4)] of [prepare_key]: the block of [arr] at
    offset [j], zero-filled past the end of [arr]. *)
Definition key_block (arr : a32) (j : nat) : a32 :=
  fold_left
    (fun key i =>
       if (i + j <? length arr)%nat then list_set key i (nth (i + j) arr 0) else key)
    (seq 0 4) [0; 0; 0; 0].

Definition prepare_key (arr : a32) : result a32 :=
  let pkey := pkey_init in
  if negb (Nat.eqb (length arr mod 4) 0)
  then Err (ValueError "Input array length must be multiple of 4")
  else
    repeat_rounds 0x10000
      (fun pkey =>
         for_each (range_step 0 (length arr) 4)
           (fun pkey j => aes_cbc_encrypt_a32 pkey (key_block arr j)) pkey)
      pkey.

(** *** Key wrapping *)

(** [sum((f(a[i:i + 4], key) for i in range(0, len(a), 4)), ())]. *)
Definition sum_blocks (f : a32 -> a32 -> result a32) (a key : a32) : result a32 :=
  for_each (range_step 0 (length a) 4)
    (fun acc i => blk <- f (slice a i (i + 4)) key ;; Ok (acc ++ blk)) [].

Definition encrypt_key (a key : a32) : result a32 :=
  if negb (Nat.eqb (length key) 4)
  then Err (ValueError "Key must be 4 integers long")
  else sum_blocks aes_cbc_encrypt_a32 a key.

Definition decrypt_key (a key : a32) : result a32 :=
  if negb (Nat.eqb (length key) 4)
  then Err (ValueError "Key must be 4 integers long")
  else sum_blocks aes_cbc_decrypt_a32 a key.

(** *** Attribute codec *)

(** The [json] module on attribute dictionaries: [json_dumps] prints a
    serialisable mapping, [json_loads] parses ([None] stands for
    [json.JSONDecodeError]). *)
Variable attrs : Type.
Variable json_dumps : attrs -> pystr.
Variable json_loads : pystr -> option attrs.

Definition MEGA : pystr := lit "MEGA".

(** The six characters [MEGA], an opening brace and a double quote. *)
Definition MEGA_open : pystr := lit "MEGA{" ++ [34%N].

Definition encrypt_attr (attr : attrs) (key : a32) : result bytes :=
  if negb (Nat.eqb (length key) 4)
  then Err (ValueError "Key must be 4 integers long")
  else
    attr_str <- makebyte (MEGA ++ json_dumps attr) ;;
    let padding := repeat x00 (16 - length attr_str mod 16) in
    k <- a32_to_str key ;;
    aes_cbc_encrypt (attr_str ++ padding) k.

Definition decrypt_attr (attr : bytes) (key : a32) : result (option attrs) :=
  if negb (Nat.eqb (length key) 4)
  then Err (ValueError "Key must be 4 integers long")
  else
    try_except
      (k <- a32_to_str key ;;
       decrypted <- aes_cbc_decrypt attr k ;;
       let decrypted_str := rstrip (makestring decrypted) 0%N in
       if pystr_eqb (firstn 6 decrypted_str) MEGA_open
       then
         match json_loads (skipn 4 decrypted_str) with
         | Some d => Ok (Some d)
         | None => Err JSONDecodeError
         end
       else Ok None)
      (fun e => is_ValueError e || is_JSONDecodeError e)
      (Ok None).

(** The three ways a ciphertext fails to decode under a key: the decryption
    itself raises, the stripped text does not begin with the six characters
    of [MEGA_open], or the JSON parser rejects what follows the magic. *)
Definition decode_fails (attr : bytes) (key : a32) : Prop :=
  match k <- a32_to_str key ;; aes_cbc_decrypt attr k with
  | Err _ => True
  | Ok decrypted =>
      let decrypted_str := rstrip (makestring decrypted) 0%N in
      firstn 6 decrypted_str <> MEGA_open
      \/ json_loads (skipn 4 decrypted_str) = None
  end.

End Crypto.

(** ** MPI decoding *)

(** One lower-case hexadecimal digit, as [binascii.hexlify] prints it. *)
Definition hex_digit (n : Z) : byte :=
  byte_of_Z (if n <? 10 then 48 + n else 87 + n).

Definition hexlify (s : bytes) : bytes :=
  flat_map
    (fun b => [ hex_digit (Z.shiftr (byte_to_Z b) 4);
                hex_digit (Z.land (byte_to_Z b) 15) ])
    s.

Definition hex_value (c : byte) : option Z :=
  let z := byte_to_Z c in
  if (48 <=? z) && (z <=? 57) then Some (z - 48)
  else if (97 <=? z) && (z <=? 102) then Some (z - 87)
  else if (65 <=? z) && (z <=? 70) then Some (z - 55)
  else None.

(** [int(text, 16)] on a run of hexadecimal digits (the only texts
    [hexlify] produces), one digit at a time from the left; the empty text
    is not a literal. *)
Definition int_step (acc : result Z) (c : byte) : result Z :=
  n <- acc ;;
  match hex_value c with
  | Some d => Ok (n * 16 + d)
  | None => Err (ValueError "invalid literal for int() with base 16")
  end.

Definition int_base16 (text : bytes) : result Z :=
  match text with
  | [] => Err (ValueError "invalid literal for int() with base 16")
  | _ => fold_left int_step text (Ok 0)
  end.

Definition mpi_to_int (s : bytes) : result Z :=
  int_base16 (hexlify (skipn 2 s)).

(** The magnitude bytes read as a big-endian unsigned integer. *)
Definition big_endian (s : bytes) : Z :=
  fold_left (fun acc b => acc * 256 + byte_to_Z b) s 0.

(** ** Extended Euclid and the modular inverse *)

(** Python's [%] and [//] on integers are floored, like [Z.modulo] and
    [Z.div]. [extended_gcd] calls itself once per division step, and every
    call takes a Python frame: [frames] is the number of frames the
    interpreter still allows where the function is entered (what is left
    of [sys.getrecursionlimit()], 1000 by default), and a call with none
    left raises [RecursionError]. *)
Fixpoint extended_gcd (frames : nat) (a b : Z) : result (Z * Z * Z) :=
  match frames with
  | O => Err RecursionError
  | S frames' =>
      if a =? 0 then Ok (b, 0, 1)
      else
        gyx <- extended_gcd frames' (b mod a) a ;;
        match gyx with
        | (g, y, x) => Ok (g, x - (b / a) * y, y)
        end
  end.

(** [frames] is the number of frames left where [modular_inverse] calls
    [extended_gcd]. *)
Definition modular_inverse (frames : nat) (a m : Z) : result Z :=
  gxy <- extended_gcd frames a m ;;
  match gxy with
  | (g, x, y) =>
      if negb (g =? 1)
      then Err (Exception "modular inverse does not exist")
      else if m =? 0 then Err ZeroDivisionError
      else Ok (x mod m)
  end.

(** ** Chunk planning *)

(** The [while] loop of [get_chunks] from offset [p] with chunk size [s];
    the generator's output is the list of yielded pairs. The chunk size
    starts at 0x20000 and only grows, hence its type. *)
Equations? get_chunks_from (p : Z) (s : positive) (size : Z) : list (Z * Z)
  by wf (Z.to_nat (size - p)) lt :=
  get_chunks_from p s size with Z_lt_dec (p + Z.pos s) size := {
    | left _ =>
        (p, Z.pos s)
          :: get_chunks_from (p + Z.pos s)
               (if Z.pos s <? 0x100000 then (s + 0x20000)%positive else s) size
    | right _ => [(p, size - p)] }.
Proof.
  lia.
Qed.

Definition get_chunks (size : Z) : list (Z * Z) :=
  get_chunks_from 0 0x20000%positive size.

(** ** Base64 decoding (the standard library's [base64.b64decode]) *)

(** The position of a character in the standard alphabet, [None] for a
    character outside it. *)
Definition b64_value (c : byte) : option Z :=
  let z := byte_to_Z c in
  if (65 <=? z) && (z <=? 90) then Some (z - 65)
  else if (97 <=? z) && (z <=? 122) then Some (z - 71)
  else if (48 <=? z) && (z <=? 57) then Some (z + 4)
  else if z =? 43 then Some 62
  else if z =? 47 then Some 63
  else None.

(** The message of [binascii.Error] for one dangling character, with the
    count of data characters the decoder reports. *)
Definition invalid_length_message (count : nat) : string :=
  ("Invalid base64-encoded string: number of data characters ("
   ++ NilZero.string_of_uint (Nat.to_uint count)
   ++ ") cannot be 1 more than a multiple of 4")%string.

(** [binascii.a2b_base64] in its default, non-strict mode: a scan with the
    position in the current quad, the bits left over from the previous
    character and the count of pad characters seen in a row. Characters
    outside the alphabet are skipped, a completed pad sequence ends the
    scan, and an unfinished quad at the end of the input is an error
    ([binascii.Error], a subclass of [ValueError]); for one dangling
    character the count in the message is computed from the bytes decoded
    so far, [len(out) / 3 * 4 + 1]. *)
Fixpoint a2b_base64 (data : bytes) (quad_pos : nat) (leftchar : Z)
  (pads : nat) (out : bytes) : result bytes :=
  match data with
  | [] =>
      match quad_pos with
      | O => Ok out
      | S O =>
          Err (ValueError (invalid_length_message (length out / 3 * 4 + 1)))
      | _ => Err (ValueError "Incorrect padding")
      end
  | c :: rest =>
      if byte_to_Z c =? 61 then
        if (2 <=? quad_pos)%nat
        then if (4 <=? quad_pos + S pads)%nat
             then Ok out
             else a2b_base64 rest quad_pos leftchar (S pads) out
        else a2b_base64 rest quad_pos leftchar pads out
      else
        match b64_value c with
        | None => a2b_base64 rest quad_pos leftchar pads out
        | Some this_ch =>
            match quad_pos with
            | O => a2b_base64 rest 1 this_ch 0 out
            | S O =>
                a2b_base64 rest 2 (Z.land this_ch 15) 0
                  (out ++ [byte_of_Z (Z.lor (Z.shiftl leftchar 2)
                                        (Z.shiftr this_ch 4))])
            | S (S O) =>
                a2b_base64 rest 3 (Z.land this_ch 3) 0
                  (out ++ [byte_of_Z (Z.lor (Z.shiftl leftchar 4)
                                        (Z.shiftr this_ch 2))])
            | _ =>
                a2b_base64 rest 0 0 0
                  (out ++ [byte_of_Z (Z.lor (Z.shiftl leftchar 6) this_ch)])
            end
        end
  end.

(** [base64.b64decode(s)] on a [str]: the text is encoded as ASCII (a
    [ValueError] on a character above 127) and handed to [a2b_base64]. *)
Definition b64decode (s : pystr) : result bytes :=
  if forallb (fun c => N.leb c 127) s
  then data <- makebyte s ;; a2b_base64 data 0 0 0 []
  else Err (ValueError "string argument should contain only ASCII characters").

(** The slice [s[i:]] of a text, empty when [i] is past the end. *)
Definition slice_from (s : pystr) (i : nat) : pystr := skipn i s.

Definition base64_url_decode (data : pystr) : result bytes :=
  let data :=
    data ++ slice_from [61%N; 61%N]
              (Z.to_nat ((2 - Z.of_nat (length data) * 3) mod 4)) in
  let data :=
    fold_left (fun data sr => replace data (fst sr) (snd sr))
      [ (45%N, [43%N]); (95%N, [47%N]); (44%N, []) ] data in
  b64decode data.

Definition base64_to_a32 (s : pystr) : result a32 :=
  b <- base64_url_decode s ;; str_to_a32 (Bytes b).

(** ** Identifier generation *)

Section IdGenerator.

(** The random source: [randbelow n g] is [random._randbelow(n)] in
    generator state [g], with the state that follows. *)
Variable rng : Type.
Variable randbelow : nat -> rng -> nat * rng.

Definition possible : pystr :=
  lit "ABCDEFGHIJKLMNOPQRSTUVWXYZabcdefghijklmnopqrstuvwxyz0123456789".

(** [random.choice(seq)]: [IndexError] on an empty sequence. *)
Definition choice (seq : pystr) (g : rng) : result (N * rng) :=
  match seq with
  | [] => Err IndexError
  | _ =>
      let ig := randbelow (length seq) g in
      c <- index seq (fst ig) ;; Ok (c, snd ig)
  end.

(** The loop [for i in range(length): text += random.choice(possible)]. *)
Fixpoint make_id_loop (n : nat) (text : pystr) (g : rng)
  : result (pystr * rng) :=
  match n with
  | O => Ok (text, g)
  | S n' =>
      cg <- choice possible g ;;
      make_id_loop n' (text ++ [fst cg]) (snd cg)
  end.

Definition make_id (length : Z) (g : rng) : result (pystr * rng) :=
  make_id_loop (Z.to_nat length) [] g.

End IdGenerator.

(** ** Reference descriptions used by the statements *)

(** The consecutive 4-word blocks of a word array, as the slices
    [a[i:i + 4]] cut it: when the length is not a multiple of 4 the last
    block holds the 1 to 3 words that remain. *)
Fixpoint blocks4 (a : a32) : list a32 :=
  match a with
  | w0 :: w1 :: w2 :: w3 :: rest => [w0; w1; w2; w3] :: blocks4 rest
  | [] => []
  | short => [short]
  end.

(** Concatenation, in order, of block results; the first exception wins. *)
Fixpoint concat_results (rs : list (result a32)) : result a32 :=
  match rs with
  | [] => Ok []
  | r :: rest => blk <- r ;; tail <- concat_results rest ;; Ok (blk ++ tail)
  end.

Definition latin1 (c : N) : Prop := (c <= 255)%N.

(** The run of the [get_chunks] generator from the loop state [(p, s)], as
    the list of pairs it yields. *)
Inductive emits (size : Z) : Z -> Z -> list (Z * Z) -> Prop :=
| emits_final (p s : Z) :
    ~ p + s < size -> emits size p s [(p, size - p)]
| emits_step (p s : Z) (l : list (Z * Z)) :
    p + s < size ->
    emits size (p + s) (if s <? 1048576 then s + 131072 else s) l ->
    emits size p s ((p, s) :: l).

(** [tiles lo hi l]: the pairs of [l] cover the range from [lo] to [hi] in
    order, each starting where the previous one ends (no gap, no overlap)
    and none of negative length. *)
Fixpoint tiles (lo hi : Z) (l : list (Z * Z)) : Prop :=
  match l with
  | [] => lo = hi
  | (p, n) :: rest => p = lo /\ 0 <= n /\ tiles (lo + n) hi rest
  end.

Definition total_length (l : list (Z * Z)) : Z :=
  fold_right (fun pn acc => snd pn + acc) 0 l.

(** The chunk size after one iteration of the loop. *)
Definition next_size (s : positive) : positive :=
  if Z.pos s <? 0x100000 then (s + 0x20000)%positive else s.

(** The plan of a 1500000-byte transfer. *)
Definition plan_1500000 : list (Z * Z) :=
  [ (0, 131072); (131072, 262144); (393216, 393216); (786432, 524288);
    (1310720, 189280) ].

(** The boundaries the specification lists for a 1500000-byte transfer. *)
Definition listed_boundaries : list (Z * Z) :=
  [ (0, 131072); (131072, 163840); (294912, 196608); (491520, 229376);
    (720896, 262144); (983040, 1048576) ].

(** ** Reference descriptions of the Euclid recursion *)

(** The triple the recursion of [extended_gcd] computes when it is not cut
    short; the recursion is on [b mod a], whose absolute value is below
    that of [a]. *)
Equations? euclid (a b : Z) : Z * Z * Z by wf (Z.abs_nat a) lt :=
  euclid a b with Z.eq_dec a 0 := {
    | left _ => (b, 0, 1)
    | right _ =>
        match euclid (b mod a) a with
        | (g, y, x) => (g, x - (b / a) * y, y)
        end }.
Proof.
  pose proof (Z.mod_bound_or b a); lia.
Qed.

(** The number of frames that recursion takes: one for the call itself and
    one per division step. *)
Equations? euclid_depth (a b : Z) : nat by wf (Z.abs_nat a) lt :=
  euclid_depth a b with Z.eq_dec a 0 := {
    | left _ => 1%nat
    | right _ => S (euclid_depth (b mod a) a) }.
Proof.
  pose proof (Z.mod_bound_or b a); lia.
Qed.

(** Consecutive Fibonacci numbers [(F n, F (n + 1))], the operands on
    which Euclid's algorithm takes the most steps. *)
Fixpoint fib_pair (n : nat) : Z * Z :=
  match n with
  | O => (0, 1)
  | S n' => let p := fib_pair n' in (snd p, fst p + snd p)
  end.

(** ** Reference descriptions of the codecs and of the chunk plan *)

(** The zero bytes [str_to_a32] appends to reach a multiple of 4. *)
Definition word_padding (n : nat) : nat := ((4 - n mod 4) mod 4)%nat.

(** The nominal length of chunk number [k] (from 0): 128 KiB more than the
    chunk before, up to 1 MiB. *)
Definition chunk_size (k : nat) : Z :=
  Z.min ((Z.of_nat k + 1) * 131072) 1048576.

(** The offset of chunk number [k]: the sum of the lengths before it. *)
Fixpoint chunk_offset (k : nat) : Z :=
  match k with
  | O => 0
  | S k' => chunk_offset k' + chunk_size k'
  end.

(** The 24-bit group of three bytes. *)
Definition group24 (x y z : Z) : Z := x * 65536 + y * 256 + z.

(** The sextets (6-bit groups) the encoder emits for a buffer. *)
Fixpoint sextets (data : bytes) : list Z :=
  match data with
  | [] => []
  | [x] =>
      let n := group24 (byte_to_Z x) 0 0 in
      [n / 262144; (n / 4096) mod 64]
  | [x; y] =>
      let n := group24 (byte_to_Z x) (byte_to_Z y) 0 in
      [n / 262144; (n / 4096) mod 64; (n / 64) mod 64]
  | x :: y :: z :: rest =>
      let n := group24 (byte_to_Z x) (byte_to_Z y) (byte_to_Z z) in
      n / 262144 :: (n / 4096) mod 64 :: (n / 64) mod 64 :: n mod 64
        :: sextets rest
  end.

(** The number of pad characters that complete the last quad. *)
Definition pad_count (n : nat) : nat :=
  match (n mod 4)%nat with
  | 2%nat => 2
  | 3%nat => 1
  | _ => 0
  end.

(** The character of a sextet in the URL-safe alphabet. *)
Definition url_code (i : Z) : N :=
  if i =? 62 then 45%N else if i =? 63 then 95%N else Byte.to_N (b64_char i).

(** Letters, digits, [-] and [_]. *)
Definition url_safe (c : N) : bool :=
  ((65 <=? c) && (c <=? 90) || (97 <=? c) && (c <=? 122)
   || (48 <=? c) && (c <=? 57) || (c =? 45) || (c =? 95))%N.

Definition sextet (i : Z) : Prop := 0 <= i < 64.

(** The two substitution chains, character by character. *)
Definition url_char (c : N) : pystr :=
  if (c =? 43)%N then [45%N] else if (c =? 47)%N then [95%N]
  else if (c =? 61)%N then [] else [c].

Definition std_char (c : N) : pystr :=
  if (c =? 45)%N then [43%N] else if (c =? 95)%N then [47%N]
  else if (c =? 44)%N then [] else [c].

(** The sextet of a URL-safe character. *)
Definition url_index (c : N) : Z :=
  let z := Z.of_N c in
  if z =? 45 then 62 else if z =? 95 then 63
  else if z <=? 57 then z + 4 else if z <=? 90 then z - 65 else z - 71.

(** ** Closed instances *)

(** The identity on blocks, standing for the cipher where a closed
    instance is evaluated. *)
Definition id_block (key block : bytes) : bytes := block.

(** A one-field attribute mapping [{"n": name}] and its printer; the
    companion parser rejects every text. *)
Definition quote : pystr := [34%N].

Definition name_dumps (name : pystr) : pystr :=
  lit "{" ++ quote ++ lit "n" ++ quote ++ lit ": " ++ quote ++ name ++ quote
    ++ lit "}".

Definition no_loads (text : pystr) : option pystr := None.

(** A counter-based random source: it answers the state modulo the
    bound. *)
Definition counter_randbelow (n : nat) (g : nat) : nat * nat :=
  (Nat.modulo g n, (g + 7)%nat).

(** * Properties *)

(** ** The result monad and the loops *)

(** Closes [returns m] and [raises m] once [m] evaluates to its outcome. *)
Ltac outcome := eexists; reflexivity.

(** Passes a length guard [if negb (Nat.eqb (length x) n)] whose test is
    settled by [H]. *)
Ltac pass_guard H := rewrite H; cbn [Nat.eqb negb].

Lemma raises_not_returns {A : Type} (m : result A) :
  raises m -> ~ returns m.
Proof. intros [e He] [a Ha]; congruence. Qed.

Lemma iter_Err {S : Type} (n : N) (body : S -> result S) (e : exn) :
  N.iter n (fun m => bind m body) (Err e) = Err e.
Proof.
  induction n as [| n IH] using N.peano_ind.
  - reflexivity.
  - rewrite N.iter_succ, IH. reflexivity.
Qed.

(** A loop whose first round raises, raises that exception. *)
Lemma repeat_rounds_first_raises {S : Type} (n : N) (body : S -> result S)
  (acc : S) (e : exn) :
  (0 < n)%N -> body acc = Err e -> repeat_rounds n body acc = Err e.
Proof.
  intros Hn Hbody. unfold repeat_rounds.
  destruct (N.succ_pred_pos n Hn).
  rewrite N.iter_succ_r. cbn [bind]. rewrite Hbody. apply iter_Err.
Qed.

Lemma for_each_first_raises {A S : Type} (x : A) (rest : list A)
  (body : S -> A -> result S) (acc : S) (e : exn) :
  body acc x = Err e -> for_each (x :: rest) body acc = Err e.
Proof. intros H. cbn. rewrite H. reflexivity. Qed.

Lemma range_step_nonempty (n : nat) :
  (0 < n)%nat -> exists rest, range_step 0 n 4 = 0%nat :: rest.
Proof.
  intros Hn. unfold range_step.
  replace (n - 0 + (4 - 1))%nat with (1 * 4 + (n - 1))%nat by lia.
  rewrite Nat.div_add_l by lia.
  cbn [Nat.add seq map Nat.mul]. eauto.
Qed.

(** ** The word codec *)

Lemma word32b_spec (w : Z) : word32b w = true <-> word32 w.
Proof. unfold word32b, word32. rewrite andb_true_iff. lia. Qed.

Lemma a32_to_str_length (a : a32) (bs : bytes) :
  a32_to_str a = Ok bs -> length bs = (4 * length a)%nat.
Proof.
  revert bs. induction a as [| w a IH]; intros bs H; cbn in H.
  - injection H as <-. reflexivity.
  - destruct (word32b w); [| discriminate].
    destruct (a32_to_str a) as [bs' |]; [| discriminate].
    injection H as <-. specialize (IH bs' eq_refl).
    cbn [length app pack_word]. lia.
Qed.

Lemma a32_to_str_returns (a : a32) :
  Forall word32 a -> returns (a32_to_str a).
Proof.
  induction 1 as [| w a Hw _ [bs IH]]; cbn.
  - outcome.
  - apply word32b_spec in Hw. rewrite Hw, IH. outcome.
Qed.

Lemma a32_to_str_out_of_range (a : a32) :
  ~ Forall word32 a -> a32_to_str a = Err StructError.
Proof.
  induction a as [| w a IH]; intros H.
  - exfalso. apply H. constructor.
  - cbn. destruct (word32b w) eqn:Hw; [| reflexivity].
    rewrite IH; [reflexivity |].
    intros Ha. apply H. constructor; [apply word32b_spec |]; assumption.
Qed.

Lemma lor_word32 (a b : Z) : word32 a -> word32 b -> word32 (Z.lor a b).
Proof.
  unfold word32. intros Ha Hb.
  assert (0 <= Z.lor a b) by (apply Z.lor_nonneg; lia).
  split; [assumption |].
  destruct (Z.eq_dec (Z.lor a b) 0) as [-> | Hne]; [reflexivity |].
  apply Z.log2_lt_pow2; [lia |].
  rewrite Z.log2_lor by lia.
  destruct (Z.eq_dec a 0) as [-> | Ha0]; destruct (Z.eq_dec b 0) as [-> | Hb0];
    cbn [Z.log2]; try lia.
  - apply Z.max_lub_lt; [lia | apply Z.log2_lt_pow2; lia].
  - apply Z.max_lub_lt; [apply Z.log2_lt_pow2; lia | lia].
  - apply Z.max_lub_lt; apply Z.log2_lt_pow2; lia.
Qed.

Lemma lxor_word32 (a b : Z) : word32 a -> word32 b -> word32 (Z.lxor a b).
Proof.
  unfold word32. intros Ha Hb.
  assert (0 <= Z.lxor a b) by (apply Z.lxor_nonneg; lia).
  split; [assumption |].
  destruct (Z.eq_dec (Z.lxor a b) 0) as [-> | Hne]; [reflexivity |].
  apply Z.log2_lt_pow2; [lia |].
  eapply Z.le_lt_trans; [apply Z.log2_lxor; lia |].
  destruct (Z.eq_dec a 0) as [-> | Ha0]; destruct (Z.eq_dec b 0) as [-> | Hb0];
    cbn [Z.log2]; try lia.
  - apply Z.max_lub_lt; [lia | apply Z.log2_lt_pow2; lia].
  - apply Z.max_lub_lt; [apply Z.log2_lt_pow2; lia | lia].
  - apply Z.max_lub_lt; apply Z.log2_lt_pow2; lia.
Qed.

Lemma byte_to_Z_range (b : byte) : 0 <= byte_to_Z b < 256.
Proof.
  unfold byte_to_Z. pose proof (Byte.to_N_bounded b). lia.
Qed.

Lemma unpack_word_word32 (b0 b1 b2 b3 : byte) : word32 (unpack_word b0 b1 b2 b3).
Proof.
  pose proof (byte_to_Z_range b0). pose proof (byte_to_Z_range b1).
  pose proof (byte_to_Z_range b2). pose proof (byte_to_Z_range b3).
  unfold unpack_word.
  repeat apply lor_word32; unfold word32; rewrite ?Z.shiftl_mul_pow2 by lia; lia.
Qed.

Lemma unpack_words_word32 (b : bytes) : Forall word32 (unpack_words b).
Proof.
  induction b as [b IH] using (well_founded_induction
    (Wf_nat.well_founded_ltof _ (@length byte))).
  destruct b as [| b0 [| b1 [| b2 [| b3 rest]]]]; cbn; try constructor.
  - apply unpack_word_word32.
  - apply IH. unfold Wf_nat.ltof. cbn. lia.
Qed.

Lemma str_to_a32_word32 (b : str_or_bytes) (ws : a32) :
  str_to_a32 b = Ok ws -> Forall word32 ws.
Proof.
  unfold str_to_a32. intros H.
  destruct (match b with Str s => makebyte s | Bytes b0 => Ok b0 end);
    cbn in H; [| discriminate].
  injection H as <-. apply unpack_words_word32.
Qed.

Lemma list_set_length {A : Type} (l : list A) (i : nat) (v : A) :
  length (list_set l i v) = length l.
Proof.
  revert i; induction l as [| x l IH]; intros [| i]; cbn; auto.
Qed.

Lemma list_set_Forall {A : Type} (P : A -> Prop) (l : list A) (i : nat) (v : A) :
  Forall P l -> P v -> Forall P (list_set l i v).
Proof.
  intros Hl Hv. revert i.
  induction Hl as [| x l Hx Hl IH]; intros [| i]; cbn; auto.
Qed.

Lemma nth_word32 (a : a32) (i : nat) : Forall word32 a -> word32 (nth i a 0).
Proof.
  intros Ha. destruct (Nat.lt_ge_cases i (length a)) as [Hi | Hi].
  - rewrite Forall_forall in Ha. apply Ha, nth_In, Hi.
  - rewrite nth_overflow by assumption. unfold word32; lia.
Qed.

Lemma firstn_Forall {A : Type} (P : A -> Prop) (n : nat) (l : list A) :
  Forall P l -> Forall P (firstn n l).
Proof.
  intros Hl. revert n.
  induction Hl as [| x l Hx Hl IH]; intros [| n]; cbn; auto.
Qed.

Lemma zeros_word32 : Forall word32 [0; 0; 0; 0].
Proof. repeat constructor; unfold word32; lia. Qed.

Lemma pkey_init_word32 : Forall word32 pkey_init.
Proof. repeat constructor; unfold word32; cbn; lia. Qed.

(** The zero-filled block built by [prepare_key] has four in-range words. *)
Lemma key_block_shape (arr : a32) (j : nat) :
  Forall word32 arr ->
  length (key_block arr j) = 4%nat /\ Forall word32 (key_block arr j).
Proof.
  intros Harr. unfold key_block.
  assert (Hgen : forall (idx : list nat) (key : a32),
             length key = 4%nat -> Forall word32 key ->
             let r := fold_left
               (fun key i =>
                  if (i + j <? length arr)%nat
                  then list_set key i (nth (i + j) arr 0) else key) idx key in
             length r = 4%nat /\ Forall word32 r).
  { induction idx as [| i idx IH]; intros key Hlen Hkey; cbn [fold_left].
    - auto.
    - apply IH.
      + destruct (i + j <? length arr)%nat; [rewrite list_set_length |]; assumption.
      + destruct (i + j <? length arr)%nat; [| assumption].
        apply list_set_Forall; [assumption | apply nth_word32, Harr]. }
  apply Hgen; [reflexivity | apply zeros_word32].
Qed.

Lemma fold_words_word32 (s32 : a32) :
  Forall word32 s32 -> Forall word32 (fold_words s32).
Proof.
  intros Hs. unfold fold_words.
  generalize (seq 0 (length s32)). generalize zeros_word32.
  generalize [0; 0; 0; 0].
  intros h Hh idx. revert h Hh.
  induction idx as [| i idx IH]; intros h Hh; cbn.
  - assumption.
  - apply IH, list_set_Forall; [assumption |].
    apply lxor_word32; apply nth_word32; assumption.
Qed.

(** ** The cipher layer as the code has it *)

Section CipherFacts.

Variable E D : bytes -> bytes -> bytes.

(** The byte-level wrappers insist on a 32-byte key. *)
Lemma aes_cbc_encrypt_key_guard (data key : bytes) :
  length key <> 32%nat ->
  aes_cbc_encrypt E data key = Err (ValueError "Key must be 32 bytes long").
Proof.
  intros H. unfold aes_cbc_encrypt.
  apply Nat.eqb_neq in H. rewrite H. reflexivity.
Qed.

Lemma aes_cbc_decrypt_key_guard (data key : bytes) :
  length key <> 32%nat ->
  aes_cbc_decrypt D data key = Err (ValueError "Key must be 32 bytes long").
Proof.
  intros H. unfold aes_cbc_decrypt.
  apply Nat.eqb_neq in H. rewrite H. reflexivity.
Qed.

(** The word-level wrappers insist on a 4-word key, that is 16 bytes once
    packed: the two guards exclude each other. *)
Lemma aes_cbc_encrypt_a32_rejects (data key : a32) :
  length key = 4%nat -> Forall word32 data -> Forall word32 key ->
  aes_cbc_encrypt_a32 E data key = Err (ValueError "Key must be 32 bytes long").
Proof.
  intros Hlen Hdata Hkey. unfold aes_cbc_encrypt_a32.
  pass_guard Hlen.
  destruct (a32_to_str_returns data Hdata) as [d ->].
  destruct (a32_to_str_returns key Hkey) as [k Hk]. rewrite Hk. cbn [bind].
  apply a32_to_str_length in Hk.
  rewrite aes_cbc_encrypt_key_guard by lia. reflexivity.
Qed.

Lemma aes_cbc_decrypt_a32_rejects (data key : a32) :
  length key = 4%nat -> Forall word32 data -> Forall word32 key ->
  aes_cbc_decrypt_a32 D data key = Err (ValueError "Key must be 32 bytes long").
Proof.
  intros Hlen Hdata Hkey. unfold aes_cbc_decrypt_a32.
  pass_guard Hlen.
  destruct (a32_to_str_returns data Hdata) as [d ->].
  destruct (a32_to_str_returns key Hkey) as [k Hk]. rewrite Hk. cbn [bind].
  apply a32_to_str_length in Hk.
  rewrite aes_cbc_decrypt_key_guard by lia. reflexivity.
Qed.

(** Whatever the operands, the word-level wrappers never return. *)
Lemma aes_cbc_encrypt_a32_raises (data key : a32) :
  raises (aes_cbc_encrypt_a32 E data key).
Proof.
  unfold aes_cbc_encrypt_a32, raises.
  destruct (Nat.eqb (length key) 4) eqn:Hlen; cbn [negb];
    [| outcome].
  apply Nat.eqb_eq in Hlen.
  destruct (a32_to_str data) as [d |]; cbn [bind]; [| outcome].
  destruct (a32_to_str key) as [k |] eqn:Hk; cbn [bind];
    [| outcome].
  apply a32_to_str_length in Hk.
  rewrite aes_cbc_encrypt_key_guard by lia. outcome.
Qed.

Lemma aes_cbc_decrypt_a32_raises (data key : a32) :
  raises (aes_cbc_decrypt_a32 D data key).
Proof.
  unfold aes_cbc_decrypt_a32, raises.
  destruct (Nat.eqb (length key) 4) eqn:Hlen; cbn [negb];
    [| outcome].
  apply Nat.eqb_eq in Hlen.
  destruct (a32_to_str data) as [d |]; cbn [bind]; [| outcome].
  destruct (a32_to_str key) as [k |] eqn:Hk; cbn [bind];
    [| outcome].
  apply a32_to_str_length in Hk.
  rewrite aes_cbc_decrypt_key_guard by lia. outcome.
Qed.

(** *** Key derivation *)

Lemma prepare_key_empty : prepare_key E [] = Ok pkey_init.
Proof. vm_compute. reflexivity. Qed.

Lemma prepare_key_contract (arr : a32) :
  (length arr mod 4 <> 0)%nat ->
  prepare_key E arr = Err (ValueError "Input array length must be multiple of 4").
Proof.
  intros H. unfold prepare_key.
  apply Nat.eqb_neq in H. rewrite H. reflexivity.
Qed.

(** C1. [prepare_key] on a non-empty word array whose length is a multiple
    of 4 does not return the accumulator of 65536 rounds of word-CBC
    encryption: the first block of the first round already raises
    [ValueError('Key must be 32 bytes long')], because the 4-word block
    used as key packs to 16 bytes. *)
Theorem prepare_key_raises_on_blocks (arr : a32) :
  arr <> [] -> (length arr mod 4 = 0)%nat -> Forall word32 arr ->
  prepare_key E arr = Err (ValueError "Key must be 32 bytes long").
Proof.
  intros Hne Hmod Harr. unfold prepare_key.
  pass_guard Hmod.
  apply repeat_rounds_first_raises; [reflexivity |].
  destruct (range_step_nonempty (length arr)) as [rest ->].
  { destruct arr; [congruence | cbn; lia]. }
  apply for_each_first_raises.
  destruct (key_block_shape arr 0 Harr) as [Hlen Hkey].
  apply aes_cbc_encrypt_a32_rejects;
    [assumption | apply pkey_init_word32 | assumption].
Qed.

Lemma makebyte_returns (x : pystr) : Forall latin1 x -> returns (makebyte x).
Proof.
  induction 1 as [| c x Hc _ [bs IH]]; cbn.
  - outcome.
  - destruct (Byte.of_N c) as [b |] eqn:Hb.
    + rewrite IH. outcome.
    + apply Byte.of_N_None_iff in Hb. unfold latin1 in Hc. lia.
Qed.

Lemma makebyte_raises (x : pystr) :
  ~ Forall latin1 x -> makebyte x = Err UnicodeEncodeError.
Proof.
  induction x as [| c x IH]; intros H.
  - exfalso. apply H. constructor.
  - cbn. destruct (Byte.of_N c) as [b |] eqn:Hb; [| reflexivity].
    rewrite IH; [reflexivity |]. intros Hx. apply H. constructor; [| exact Hx].
    apply Byte.to_of_N in Hb. pose proof (Byte.to_N_bounded b).
    unfold latin1. lia.
Qed.

(** A text with a character outside Latin-1 is refused by the codec. *)
Lemma stringhash_non_latin1 (str : pystr) (aeskey : a32) :
  length aeskey = 4%nat -> ~ Forall latin1 str ->
  stringhash E str aeskey = Err UnicodeEncodeError.
Proof.
  intros Hlen Hstr. unfold stringhash, str_to_a32.
  rewrite Hlen, (makebyte_raises str Hstr). reflexivity.
Qed.

Lemma stringhash_contract (str : pystr) (aeskey : a32) :
  length aeskey <> 4%nat ->
  stringhash E str aeskey = Err (ValueError "AES key must be 4 integers long").
Proof.
  intros H. unfold stringhash.
  apply Nat.eqb_neq in H. rewrite H. reflexivity.
Qed.

(** No text and no key make [stringhash] return. *)
Lemma stringhash_never_returns (str : pystr) (aeskey : a32) :
  raises (stringhash E str aeskey).
Proof.
  unfold stringhash.
  destruct (Nat.eqb (length aeskey) 4); cbn [negb]; [| outcome].
  destruct (str_to_a32 (Str str)) as [s32 |]; cbn [bind];
    [| outcome].
  destruct (aes_cbc_encrypt_a32_raises (fold_words s32) aeskey) as [e He].
  rewrite (repeat_rounds_first_raises _ _ _ e); [| reflexivity | exact He].
  outcome.
Qed.

(** C2. [stringhash] on a Latin-1 text and a 4-word key does not return the
    base64url text of accumulator positions 0 and 2: the first of the
    16384 rounds raises [ValueError('Key must be 32 bytes long')], because
    the 4-word key packs to 16 bytes. *)
Theorem stringhash_raises_on_valid_key (str : pystr) (aeskey : a32) :
  length aeskey = 4%nat -> Forall word32 aeskey -> Forall latin1 str ->
  stringhash E str aeskey = Err (ValueError "Key must be 32 bytes long").
Proof.
  intros Hlen Hkey Hstr. unfold stringhash.
  pass_guard Hlen.
  destruct (str_to_a32 (Str str)) as [s32 |] eqn:Hs32.
  - cbn [bind].
    rewrite (repeat_rounds_first_raises _ _ _
               (ValueError "Key must be 32 bytes long")); [reflexivity .. |].
    apply aes_cbc_encrypt_a32_rejects; [assumption | | assumption].
    apply fold_words_word32. eapply str_to_a32_word32, Hs32.
  - exfalso. unfold str_to_a32 in Hs32.
    destruct (makebyte_returns str Hstr) as [bs Hbs].
    rewrite Hbs in Hs32. discriminate.
Qed.

(** *** Key wrapping *)

Lemma slice_block {A : Type} (a : list A) (i : nat) :
  slice a i (i + 4) = firstn 4 (skipn i a).
Proof. unfold slice. f_equal. lia. Qed.

Lemma sum_blocks_first_raises (f : a32 -> a32 -> result a32) (a key : a32)
  (e : exn) :
  a <> [] -> f (firstn 4 a) key = Err e -> sum_blocks f a key = Err e.
Proof.
  intros Hne Hf. unfold sum_blocks.
  destruct (range_step_nonempty (length a)) as [rest ->].
  { destruct a; [congruence | cbn; lia]. }
  apply for_each_first_raises.
  rewrite slice_block. cbn [skipn]. rewrite Hf. reflexivity.
Qed.

Lemma encrypt_key_empty (key : a32) :
  length key = 4%nat -> encrypt_key E [] key = Ok [].
Proof. intros H. unfold encrypt_key. rewrite H. reflexivity. Qed.

Lemma decrypt_key_empty (key : a32) :
  length key = 4%nat -> decrypt_key D [] key = Ok [].
Proof. intros H. unfold decrypt_key. rewrite H. reflexivity. Qed.

Lemma encrypt_key_rejects (a key : a32) :
  a <> [] -> length key = 4%nat -> Forall word32 a -> Forall word32 key ->
  encrypt_key E a key = Err (ValueError "Key must be 32 bytes long").
Proof.
  intros Hne Hlen Ha Hkey. unfold encrypt_key.
  pass_guard Hlen.
  apply sum_blocks_first_raises; [assumption |].
  apply aes_cbc_encrypt_a32_rejects; [assumption | | assumption].
  apply firstn_Forall, Ha.
Qed.

Lemma decrypt_key_rejects (a key : a32) :
  a <> [] -> length key = 4%nat -> Forall word32 a -> Forall word32 key ->
  decrypt_key D a key = Err (ValueError "Key must be 32 bytes long").
Proof.
  intros Hne Hlen Ha Hkey. unfold decrypt_key.
  pass_guard Hlen.
  apply sum_blocks_first_raises; [assumption |].
  apply aes_cbc_decrypt_a32_rejects; [assumption | | assumption].
  apply firstn_Forall, Ha.
Qed.

(** C3. On a non-empty word array whose length is a multiple of 4 and a
    4-word key, [encrypt_key] and [decrypt_key] both raise
    [ValueError('Key must be 32 bytes long')], so neither composition gives
    the array back. *)
Theorem key_wrap_roundtrip_raises (w k : a32) :
  w <> [] -> (length w mod 4 = 0)%nat -> length k = 4%nat ->
  Forall word32 w -> Forall word32 k ->
  (c <- encrypt_key E w k ;; decrypt_key D c k)
    = Err (ValueError "Key must be 32 bytes long") /\
  (p <- decrypt_key D w k ;; encrypt_key E p k)
    = Err (ValueError "Key must be 32 bytes long").
Proof.
  intros Hne _ Hlen Hw Hk.
  rewrite encrypt_key_rejects, decrypt_key_rejects by assumption.
  split; reflexivity.
Qed.

End CipherFacts.

Lemma prepare_key_raises_on_blocks_witness :
  prepare_key id_block [0; 0; 0; 0]
    = Err (ValueError "Key must be 32 bytes long").
Proof.
  apply prepare_key_raises_on_blocks.
  - discriminate.
  - reflexivity.
  - apply zeros_word32.
Defined.

Lemma stringhash_raises_on_valid_key_witness :
  stringhash id_block (lit "a@b.c") [0; 0; 0; 0]
    = Err (ValueError "Key must be 32 bytes long").
Proof.
  apply stringhash_raises_on_valid_key.
  - reflexivity.
  - apply zeros_word32.
  - repeat constructor; unfold latin1; cbn; lia.
Defined.

Lemma key_wrap_roundtrip_raises_witness :
  (c <- encrypt_key id_block [1; 2; 3; 4] [0; 0; 0; 0] ;;
   decrypt_key id_block c [0; 0; 0; 0])
    = Err (ValueError "Key must be 32 bytes long") /\
  (p <- decrypt_key id_block [1; 2; 3; 4] [0; 0; 0; 0] ;;
   encrypt_key id_block p [0; 0; 0; 0])
    = Err (ValueError "Key must be 32 bytes long").
Proof.
  apply key_wrap_roundtrip_raises.
  - discriminate.
  - reflexivity.
  - reflexivity.
  - repeat constructor; unfold word32; lia.
  - apply zeros_word32.
Defined.

(** ** The word codec, round trip *)

Lemma byte_to_of_Z (z : Z) : byte_to_Z (byte_of_Z z) = z mod 256.
Proof.
  unfold byte_to_Z, byte_of_Z.
  pose proof (Z.mod_pos_bound z 256 ltac:(lia)) as Hz.
  destruct (Byte.of_N (Z.to_N (z mod 256))) as [b |] eqn:Hb.
  - apply Byte.to_of_N in Hb. rewrite Hb. lia.
  - apply Byte.of_N_None_iff in Hb. lia.
Qed.

Lemma byte_of_to_Z (b : byte) : byte_of_Z (byte_to_Z b) = b.
Proof.
  unfold byte_of_Z. pose proof (byte_to_Z_range b) as Hb.
  rewrite Z.mod_small by lia. unfold byte_to_Z.
  rewrite N2Z.id, Byte.of_to_N. reflexivity.
Qed.

Lemma unpack_pack_word (w : Z) :
  word32 w ->
  match pack_word w with
  | [b0; b1; b2; b3] => unpack_word b0 b1 b2 b3 = w
  | _ => False
  end.
Proof.
  intros [Hlo Hhi]. cbn [pack_word]. unfold unpack_word.
  rewrite !byte_to_of_Z. change 256 with (2 ^ 8).
  apply Z.bits_inj'. intros n Hn.
  rewrite !Z.lor_spec, !Z.shiftl_spec by lia.
  assert (Hhigh : 32 <= n -> Z.testbit w n = false).
  { intros H. rewrite <- (Z.mod_small w (2 ^ 32)) by lia.
    apply Z.mod_pow2_bits_high. lia. }
  destruct (Z.lt_ge_cases n 8); [| destruct (Z.lt_ge_cases n 16);
    [| destruct (Z.lt_ge_cases n 24); [| destruct (Z.lt_ge_cases n 32)]]].
  - rewrite (Z.testbit_neg_r _ (n - 24)), (Z.testbit_neg_r _ (n - 16)),
      (Z.testbit_neg_r _ (n - 8)) by lia.
    rewrite Z.mod_pow2_bits_low by lia. reflexivity.
  - rewrite (Z.testbit_neg_r _ (n - 24)), (Z.testbit_neg_r _ (n - 16)) by lia.
    rewrite (Z.mod_pow2_bits_low _ _ (n - 8)) by lia.
    rewrite (Z.mod_pow2_bits_high w) by lia.
    rewrite Z.shiftr_spec by lia. cbn [orb]. rewrite orb_false_r.
    f_equal. lia.
  - rewrite (Z.testbit_neg_r _ (n - 24)) by lia.
    rewrite (Z.mod_pow2_bits_low _ _ (n - 16)) by lia.
    rewrite (Z.mod_pow2_bits_high _ _ (n - 8)) by lia.
    rewrite (Z.mod_pow2_bits_high w) by lia.
    rewrite Z.shiftr_spec by lia. cbn [orb]. rewrite orb_false_r.
    f_equal. lia.
  - rewrite (Z.mod_pow2_bits_low _ _ (n - 24)) by lia.
    rewrite (Z.mod_pow2_bits_high _ _ (n - 16)) by lia.
    rewrite (Z.mod_pow2_bits_high _ _ (n - 8)) by lia.
    rewrite (Z.mod_pow2_bits_high w) by lia.
    rewrite Z.shiftr_spec by lia. rewrite !orb_false_r.
    f_equal. lia.
  - rewrite (Z.mod_pow2_bits_high _ _ (n - 24)) by lia.
    rewrite (Z.mod_pow2_bits_high _ _ (n - 16)) by lia.
    rewrite (Z.mod_pow2_bits_high _ _ (n - 8)) by lia.
    rewrite (Z.mod_pow2_bits_high w) by lia.
    rewrite Hhigh by lia. reflexivity.
Qed.

(** [bytesToWords(wordsToBytes(w)) == w] on in-range words. *)
Lemma unpack_words_a32_to_str (a : a32) (bs : bytes) :
  a32_to_str a = Ok bs -> unpack_words bs = a.
Proof.
  revert bs. induction a as [| w a IH]; intros bs H; cbn [a32_to_str] in H.
  - injection H as <-. reflexivity.
  - destruct (word32b w) eqn:Hw; [| discriminate].
    apply word32b_spec in Hw.
    destruct (a32_to_str a) as [bs' |]; [| discriminate].
    cbn [bind] in H. injection H as <-.
    pose proof (unpack_pack_word w Hw) as Hpack.
    unfold pack_word in *. cbn [app unpack_words].
    rewrite Hpack, (IH bs' eq_refl). reflexivity.
Qed.

Lemma str_to_a32_a32_to_str (a : a32) (bs : bytes) :
  a32_to_str a = Ok bs -> str_to_a32 (Bytes bs) = Ok a.
Proof.
  intros H. unfold str_to_a32. cbn [bind].
  rewrite (a32_to_str_length a bs H).
  replace (4 * length a)%nat with (length a * 4)%nat by lia.
  rewrite Nat.Div0.mod_mul. cbn [Nat.eqb].
  rewrite (unpack_words_a32_to_str a bs H). reflexivity.
Qed.

(** ** The cipher library on aligned data *)

Section LibraryFacts.

Variable E D : bytes -> bytes -> bytes.

(** What makes [E] and [D] a block cipher: on 16-byte blocks [D] undoes
    [E], and [E] produces 16-byte blocks. *)
Hypothesis E_length : forall key blk, length blk = 16%nat -> length (E key blk) = 16%nat.
Hypothesis D_E : forall key blk, length blk = 16%nat -> D key (E key blk) = blk.

Lemma byte_xor_cancel (x y : byte) : byte_xor (byte_xor x y) y = x.
Proof.
  unfold byte_xor. rewrite byte_to_of_Z.
  pose proof (byte_to_Z_range x) as Hx. pose proof (byte_to_Z_range y) as Hy.
  assert (Hxy : 0 <= Z.lxor (byte_to_Z x) (byte_to_Z y) < 256).
  { change 256 with (2 ^ 8). split; [apply Z.lxor_nonneg; lia |].
    destruct (Z.eq_dec (Z.lxor (byte_to_Z x) (byte_to_Z y)) 0) as [-> | Hne];
      [reflexivity |].
    assert (0 < Z.lxor (byte_to_Z x) (byte_to_Z y))
      by (pose proof (proj2 (Z.lxor_nonneg (byte_to_Z x) (byte_to_Z y))); lia).
    apply Z.log2_lt_pow2; [lia |].
    eapply Z.le_lt_trans; [apply Z.log2_lxor; lia |].
    apply Z.max_lub_lt.
    - destruct (Z.eq_dec (byte_to_Z x) 0) as [-> | ?]; [cbn; lia |].
      apply Z.log2_lt_pow2; lia.
    - destruct (Z.eq_dec (byte_to_Z y) 0) as [-> | ?]; [cbn; lia |].
      apply Z.log2_lt_pow2; lia. }
  rewrite Z.mod_small by lia.
  rewrite Z.lxor_assoc, Z.lxor_nilpotent, Z.lxor_0_r.
  apply byte_of_to_Z.
Qed.

Lemma xor_block_length (a b : bytes) :
  length a = length b -> length (xor_block a b) = length a.
Proof.
  intros H. unfold xor_block. rewrite length_map, length_combine. lia.
Qed.

Lemma xor_block_cancel (a b : bytes) :
  length a = length b -> xor_block (xor_block a b) b = a.
Proof.
  revert b. induction a as [| x a IH]; intros [| y b] H; try discriminate.
  - reflexivity.
  - cbn in *. unfold xor_block in IH. rewrite IH by lia.
    rewrite byte_xor_cancel. reflexivity.
Qed.

(** CBC decryption undoes CBC encryption on [n] whole blocks. *)
Lemma cbc_decrypt_encrypt_blocks (n : nat) (key iv data : bytes) :
  length iv = 16%nat -> length data = (16 * n)%nat ->
  cbc_decrypt_blocks D n key iv (cbc_encrypt_blocks E n key iv data) = data.
Proof.
  revert iv data. induction n as [| n IH]; intros iv data Hiv Hdata.
  - destruct data; [reflexivity | discriminate].
  - cbn [cbc_encrypt_blocks cbc_decrypt_blocks].
    set (blk := firstn 16 data).
    assert (Hblk : length blk = 16%nat)
      by (unfold blk; rewrite length_firstn; lia).
    assert (Hx : length (xor_block blk iv) = 16%nat)
      by (rewrite xor_block_length; lia).
    set (c := E key (xor_block blk iv)).
    assert (Hc : length c = 16%nat) by (apply E_length, Hx).
    rewrite firstn_app, skipn_app, Hc, Nat.sub_diag.
    rewrite (firstn_all2 (n := 16) c), (skipn_all2 (n := 16) c) by lia.
    rewrite firstn_O, skipn_O, app_nil_r. cbn [app].
    unfold c at 1. rewrite D_E by assumption.
    rewrite xor_block_cancel by lia.
    rewrite IH; [apply firstn_skipn | assumption |].
    rewrite length_skipn. lia.
Qed.

Lemma cbc_encrypt_blocks_length (n : nat) (key iv data : bytes) :
  length iv = 16%nat -> length data = (16 * n)%nat ->
  length (cbc_encrypt_blocks E n key iv data) = (16 * n)%nat.
Proof.
  revert iv data. induction n as [| n IH]; intros iv data Hiv Hdata.
  - reflexivity.
  - cbn [cbc_encrypt_blocks].
    assert (Hx : length (xor_block (firstn 16 data) iv) = 16%nat)
      by (rewrite xor_block_length; rewrite length_firstn; lia).
    rewrite length_app, E_length, IH; try lia.
    + apply E_length, Hx.
    + rewrite length_skipn. lia.
Qed.

(** The library accepts 16, 24 and 32-byte keys alike, and decrypts what it
    encrypted. *)
Lemma AES_decrypt_encrypt (key iv data : bytes) :
  AES_key_size_ok key = true -> length iv = 16%nat ->
  (length data mod 16 = 0)%nat ->
  (cipher <- AES_new key iv ;;
   c <- AES_encrypt E cipher data ;;
   AES_decrypt D cipher c) = Ok data.
Proof.
  intros Hkey Hiv Hdata. unfold AES_new. rewrite Hkey, Hiv. cbn [negb Nat.eqb bind].
  unfold AES_encrypt. rewrite Hdata. cbn [negb Nat.eqb bind fst snd].
  unfold AES_decrypt. cbn [fst snd].
  assert (Hlen : length data = (16 * (length data / 16))%nat).
  { pose proof (Nat.div_mod_eq (length data) 16). lia. }
  rewrite (cbc_encrypt_blocks_length _ key iv data Hiv Hlen).
  replace (16 * (length data / 16))%nat with (length data / 16 * 16)%nat by lia.
  rewrite Nat.Div0.mod_mul, Nat.div_mul by lia. cbn [negb Nat.eqb].
  rewrite cbc_decrypt_encrypt_blocks by assumption. reflexivity.
Qed.

(** But for the 32-byte guard of the byte-level wrappers, word-CBC
    decryption undoes word-CBC encryption: the library accepts the packed
    4-word key, and packing, CBC and unpacking all invert. *)
Lemma word_cbc_library_roundtrip (w key : a32) :
  length key = 4%nat -> Forall word32 key -> Forall word32 w ->
  (length w mod 4 = 0)%nat ->
  (k <- a32_to_str key ;;
   d <- a32_to_str w ;;
   iv <- makebyte (repeat 0%N 16) ;;
   cipher <- AES_new k iv ;;
   c <- AES_encrypt E cipher d ;;
   p <- AES_decrypt D cipher c ;;
   str_to_a32 (Bytes p)) = Ok w.
Proof.
  intros Hlen Hkey Hw Hmod.
  destruct (a32_to_str_returns key Hkey) as [k Hk].
  destruct (a32_to_str_returns w Hw) as [d Hd].
  rewrite Hk, Hd. cbn [bind].
  pose proof (a32_to_str_length _ _ Hk) as Hklen.
  pose proof (a32_to_str_length _ _ Hd) as Hdlen.
  change (makebyte (repeat 0%N 16)) with (Ok (repeat x00 16)). cbn [bind].
  assert (Hok : AES_key_size_ok k = true).
  { unfold AES_key_size_ok. rewrite Hklen, Hlen. reflexivity. }
  assert (Hd16 : (length d mod 16 = 0)%nat).
  { rewrite Hdlen.
    pose proof (Nat.div_mod_eq (length w) 4) as Hdiv. rewrite Hmod in Hdiv.
    replace (4 * length w)%nat with (length w / 4 * 16)%nat by lia.
    apply Nat.Div0.mod_mul. }
  pose proof (AES_decrypt_encrypt k (repeat x00 16) d Hok eq_refl Hd16) as Hrt.
  destruct (AES_new k (repeat x00 16)) as [cipher |]; cbn [bind] in *;
    [| discriminate].
  destruct (AES_encrypt E cipher d) as [c |]; cbn [bind] in *; [| discriminate].
  rewrite Hrt. cbn [bind]. apply str_to_a32_a32_to_str, Hd.
Qed.

End LibraryFacts.

(** The hypotheses on the block cipher are met, for instance, by the
    identity on blocks. *)
Example word_cbc_library_roundtrip_id :
  (k <- a32_to_str [0; 0; 0; 0] ;;
   d <- a32_to_str [1; 2; 3; 4] ;;
   iv <- makebyte (repeat 0%N 16) ;;
   cipher <- AES_new k iv ;;
   c <- AES_encrypt id_block cipher d ;;
   p <- AES_decrypt id_block cipher c ;;
   str_to_a32 (Bytes p)) = Ok [1; 2; 3; 4].
Proof.
  apply (word_cbc_library_roundtrip id_block id_block
           (fun _ _ H => H) (fun _ _ _ => eq_refl)); try reflexivity.
  - apply zeros_word32.
  - repeat constructor; unfold word32; lia.
Qed.

(** ** Key wrapping, block by block *)

(** Induction four elements at a time. *)
Lemma list_ind4 {A : Type} (P : list A -> Prop) :
  P [] ->
  (forall x, P [x]) ->
  (forall x y, P [x; y]) ->
  (forall x y z, P [x; y; z]) ->
  (forall x y z t rest, P rest -> P (x :: y :: z :: t :: rest)) ->
  forall l, P l.
Proof.
  intros H0 H1 H2 H3 H4.
  fix IH 1.
  intros [| x [| y [| z [| t rest]]]];
    [exact H0 | apply H1 | apply H2 | apply H3 | apply H4, IH].
Qed.

Lemma concat_blocks4 (a : a32) : concat (blocks4 a) = a.
Proof.
  induction a as [| x | x y | x y z | x y z t rest IH] using list_ind4;
    cbn; try reflexivity.
  rewrite IH. reflexivity.
Qed.

Lemma blocks4_sizes (a : a32) :
  Forall (fun blk => (1 <= length blk <= 4)%nat) (blocks4 a).
Proof.
  induction a as [| x | x y | x y z | x y z t rest IH] using list_ind4;
    cbn [blocks4]; repeat constructor; cbn; try lia.
  assumption.
Qed.

Lemma blocks4_multiple (a : a32) :
  (length a mod 4 = 0)%nat ->
  Forall (fun blk => length blk = 4%nat) (blocks4 a).
Proof.
  induction a as [| x | x y | x y z | x y z t rest IH] using list_ind4;
    cbn [blocks4]; intros H; try discriminate; constructor.
  - reflexivity.
  - apply IH. cbn [length] in H.
    replace (S (S (S (S (length rest))))) with (length rest + 1 * 4)%nat in H by lia.
    rewrite Nat.Div0.mod_add in H. exact H.
Qed.

(** The index arithmetic of the generator cuts exactly the blocks. *)
Lemma slices_blocks4 (a : a32) :
  map (fun i => slice a i (i + 4)) (range_step 0 (length a) 4) = blocks4 a.
Proof.
  unfold range_step. rewrite map_map. cbn [Nat.add Nat.sub].
  rewrite Nat.sub_0_r.
  induction a as [| x | x y | x y z | x y z t rest IH] using list_ind4;
    try reflexivity.
  cbn [length blocks4].
  replace (S (S (S (S (length rest)))) + 3)%nat
    with (1 * 4 + (length rest + 3))%nat by lia.
  rewrite Nat.div_add_l by lia.
  cbn [Nat.add seq map]. f_equal.
  rewrite <- seq_shift, map_map, <- IH.
  apply map_ext. intros k. rewrite !slice_block.
  replace (S k * 4)%nat with (4 + k * 4)%nat by lia. reflexivity.
Qed.

Lemma for_each_concat (g : nat -> result a32) (idxs : list nat) (acc : a32) :
  for_each idxs (fun acc i => blk <- g i ;; Ok (acc ++ blk)) acc
  = (tail <- concat_results (map g idxs) ;; Ok (acc ++ tail)).
Proof.
  revert acc. induction idxs as [| i idxs IH]; intros acc; cbn.
  - rewrite app_nil_r. reflexivity.
  - destruct (g i) as [blk | e]; cbn; [| reflexivity].
    rewrite IH. destruct (concat_results (map g idxs)); cbn; [| reflexivity].
    rewrite app_assoc. reflexivity.
Qed.

Lemma sum_blocks_blockwise (f : a32 -> a32 -> result a32) (a key : a32) :
  sum_blocks f a key = concat_results (map (fun blk => f blk key) (blocks4 a)).
Proof.
  unfold sum_blocks.
  rewrite (for_each_concat (fun i => f (slice a i (i + 4)) key)).
  rewrite <- slices_blocks4, map_map.
  destruct (concat_results _); reflexivity.
Qed.

Section KeyWrapFacts.

Variable E D : bytes -> bytes -> bytes.

(** The cipher library does not pad: a buffer that is not a whole number
    of 16-byte blocks is refused, whatever the key and the IV. *)
Lemma AES_encrypt_unpadded (cipher : bytes * bytes) (data : bytes) :
  (length data mod 16 <> 0)%nat ->
  AES_encrypt E cipher data
    = Err (ValueError "Data must be padded to 16 byte boundary in CBC mode").
Proof.
  intros H. unfold AES_encrypt. apply Nat.eqb_neq in H. rewrite H. reflexivity.
Qed.

Lemma AES_decrypt_unpadded (cipher : bytes * bytes) (data : bytes) :
  (length data mod 16 <> 0)%nat ->
  AES_decrypt D cipher data
    = Err (ValueError "Data must be padded to 16 byte boundary in CBC mode").
Proof.
  intros H. unfold AES_decrypt. apply Nat.eqb_neq in H. rewrite H. reflexivity.
Qed.

Lemma encrypt_key_blockwise (a key : a32) :
  length key = 4%nat ->
  encrypt_key E a key
  = concat_results (map (fun blk => aes_cbc_encrypt_a32 E blk key) (blocks4 a)).
Proof.
  intros H. unfold encrypt_key. pass_guard H.
  apply sum_blocks_blockwise.
Qed.

Lemma decrypt_key_blockwise (a key : a32) :
  length key = 4%nat ->
  decrypt_key D a key
  = concat_results (map (fun blk => aes_cbc_decrypt_a32 D blk key) (blocks4 a)).
Proof.
  intros H. unfold decrypt_key. pass_guard H.
  apply sum_blocks_blockwise.
Qed.


End KeyWrapFacts.


(** ** Key derivation, round by round *)

Lemma nth_skipn_add {A : Type} (l : list A) (i j : nat) (d : A) :
  nth (i + j) l d = nth i (skipn j l) d.
Proof.
  revert l. induction j as [| j IH]; intros l.
  - rewrite Nat.add_0_r. reflexivity.
  - rewrite Nat.add_succ_r. destruct l as [| x l]; cbn [nth skipn].
    + destruct i; reflexivity.
    + apply IH.
Qed.

(** The block built by the inner loop of [prepare_key] is the slice at
    [j], zero-filled to four words. *)
Lemma key_block_slice (arr : a32) (j : nat) :
  key_block arr j = firstn 4 (skipn j arr ++ [0; 0; 0; 0]).
Proof.
  unfold key_block. cbn [seq fold_left].
  rewrite !(nth_skipn_add arr _ j).
  assert (Hlt : forall i, (i + j <? length arr)%nat = (i <? length (skipn j arr))%nat).
  { intros i. rewrite length_skipn.
    destruct (Nat.ltb_spec (i + j) (length arr));
      destruct (Nat.ltb_spec i (length arr - j)); lia || reflexivity. }
  rewrite !Hlt.
  destruct (skipn j arr) as [| x [| y [| z [| t rest]]]]; reflexivity.
Qed.

Lemma key_block_full (arr : a32) (j : nat) :
  (j + 4 <= length arr)%nat -> key_block arr j = slice arr j (j + 4).
Proof.
  intros H. rewrite key_block_slice, slice_block.
  rewrite firstn_app.
  replace (4 - length (skipn j arr))%nat with 0%nat
    by (rewrite length_skipn; lia).
  rewrite firstn_O, app_nil_r. reflexivity.
Qed.

Lemma for_each_map {A B S : Type} (g : A -> B) (xs : list A)
  (body : S -> B -> result S) (acc : S) :
  for_each (map g xs) body acc = for_each xs (fun acc x => body acc (g x)) acc.
Proof.
  revert acc. induction xs as [| x xs IH]; intros acc; cbn.
  - reflexivity.
  - destruct (body acc (g x)); cbn; [apply IH | reflexivity].
Qed.

Lemma range_step_bound (n i : nat) :
  (n mod 4 = 0)%nat -> In i (range_step 0 n 4) -> (i + 4 <= n)%nat.
Proof.
  intros Hmod Hin. unfold range_step in Hin.
  apply in_map_iff in Hin. destruct Hin as [k [<- Hk]].
  apply in_seq in Hk.
  pose proof (Nat.div_mod_eq n 4) as Hn. rewrite Hmod in Hn.
  assert ((n - 0 + (4 - 1)) / 4 = n / 4)%nat as Hdiv.
  { replace (n - 0 + (4 - 1))%nat with (n / 4 * 4 + 3)%nat by lia.
    rewrite Nat.div_add_l by lia. cbn. lia. }
  rewrite Hdiv in Hk. lia.
Qed.

Lemma repeat_rounds_ext {S : Type} (n : N) (body body' : S -> result S)
  (acc : S) :
  (forall s, body s = body' s) ->
  repeat_rounds n body acc = repeat_rounds n body' acc.
Proof.
  intros Hext. unfold repeat_rounds.
  induction n as [| n IH] using N.peano_ind.
  - reflexivity.
  - rewrite !N.iter_succ, IH.
    destruct (N.iter n (fun m => bind m body') (Ok acc)); cbn [bind];
      [apply Hext | reflexivity].
Qed.

Section RoundFacts.

Variable E : bytes -> bytes -> bytes.

(** On an input whose length is a multiple of 4, [prepare_key] is 65536
    rounds, each passing the accumulator through one word-CBC call per
    consecutive 4-word block of the input, the block being the key. *)
Lemma prepare_key_rounds (arr : a32) :
  (length arr mod 4 = 0)%nat ->
  prepare_key E arr
  = repeat_rounds 65536
      (fun pkey =>
         for_each (blocks4 arr)
           (fun pkey block => aes_cbc_encrypt_a32 E pkey block) pkey)
      [0x93C467E3; 0x7DB0C7A4; 0xD1BE3F81; 0x0152CB56].
Proof.
  intros Hmod. unfold prepare_key. pass_guard Hmod.
  assert (Hround : forall pkey,
            for_each (range_step 0 (length arr) 4)
              (fun pkey j => aes_cbc_encrypt_a32 E pkey (key_block arr j)) pkey
            = for_each (blocks4 arr)
                (fun pkey block => aes_cbc_encrypt_a32 E pkey block) pkey).
  { intros pkey. rewrite <- slices_blocks4, for_each_map.
    generalize (range_step_bound (length arr)).
    generalize (range_step 0 (length arr) 4). intros idxs Hb. revert pkey.
    induction idxs as [| j idxs IH]; intros pkey; cbn [for_each].
    - reflexivity.
    - rewrite key_block_full by (apply Hb; [assumption | left; reflexivity]).
      destruct (aes_cbc_encrypt_a32 E pkey _); cbn [bind]; [| reflexivity].
      apply IH. intros i Hm Hi. apply Hb; [assumption | right; assumption]. }
  apply repeat_rounds_ext, Hround.
Qed.

End RoundFacts.

(** ** The attribute codec *)

Section AttrFacts.

Variable E D : bytes -> bytes -> bytes.
Variable attrs : Type.
Variable json_dumps : attrs -> pystr.
Variable json_loads : pystr -> option attrs.

Lemma encrypt_attr_contract (attr : attrs) (key : a32) :
  length key <> 4%nat ->
  encrypt_attr E attrs json_dumps attr key
    = Err (ValueError "Key must be 4 integers long").
Proof.
  intros H. unfold encrypt_attr. apply Nat.eqb_neq in H. rewrite H. reflexivity.
Qed.

Lemma decrypt_attr_contract (attr : bytes) (key : a32) :
  length key <> 4%nat ->
  decrypt_attr D attrs json_loads attr key
    = Err (ValueError "Key must be 4 integers long").
Proof.
  intros H. unfold decrypt_attr. apply Nat.eqb_neq in H. rewrite H. reflexivity.
Qed.

(** Whatever the operands, [encrypt_attr] never returns. *)
Lemma encrypt_attr_raises (attr : attrs) (key : a32) :
  raises (encrypt_attr E attrs json_dumps attr key).
Proof.
  unfold encrypt_attr.
  destruct (Nat.eqb (length key) 4) eqn:Hlen; cbn [negb];
    [| outcome].
  apply Nat.eqb_eq in Hlen.
  destruct (makebyte _) as [attr_str |]; cbn [bind]; [| outcome].
  destruct (a32_to_str key) as [k |] eqn:Hk; cbn [bind];
    [| outcome].
  apply a32_to_str_length in Hk.
  rewrite aes_cbc_encrypt_key_guard by lia. outcome.
Qed.

(** Under a well-formed 4-word key, [decrypt_attr] answers [None] to every
    ciphertext: the byte-level guard raises a [ValueError], which the
    handler turns into the absent result. *)
Lemma decrypt_attr_always_None (attr : bytes) (key : a32) :
  length key = 4%nat -> Forall word32 key ->
  decrypt_attr D attrs json_loads attr key = Ok None.
Proof.
  intros Hlen Hkey. unfold decrypt_attr. pass_guard Hlen.
  destruct (a32_to_str_returns key Hkey) as [k Hk]. rewrite Hk. cbn [bind].
  apply a32_to_str_length in Hk.
  rewrite aes_cbc_decrypt_key_guard by lia. reflexivity.
Qed.

(** C5. Under a 4-word key, [encrypt_attr] raises
    [ValueError('Key must be 32 bytes long')] instead of returning a
    ciphertext, so the composition with [decrypt_attr] does not give the
    mapping back; and [decrypt_attr] returns [None] on every ciphertext, so
    no buffer at all decrypts to the mapping. *)
Theorem attr_roundtrip_raises (attr : attrs) (key : a32) :
  length key = 4%nat -> Forall word32 key -> Forall latin1 (json_dumps attr) ->
  encrypt_attr E attrs json_dumps attr key
    = Err (ValueError "Key must be 32 bytes long") /\
  (c <- encrypt_attr E attrs json_dumps attr key ;;
   decrypt_attr D attrs json_loads c key)
    = Err (ValueError "Key must be 32 bytes long") /\
  (forall c, decrypt_attr D attrs json_loads c key <> Ok (Some attr)).
Proof.
  intros Hlen Hkey Hjson.
  assert (Henc : encrypt_attr E attrs json_dumps attr key
                 = Err (ValueError "Key must be 32 bytes long")).
  { unfold encrypt_attr. pass_guard Hlen.
    destruct (makebyte_returns (MEGA ++ json_dumps attr)) as [attr_str ->].
    { apply Forall_app. split; [| assumption].
      repeat constructor; unfold latin1; cbn; lia. }
    destruct (a32_to_str_returns key Hkey) as [k Hk]. rewrite Hk. cbn [bind].
    apply a32_to_str_length in Hk.
    apply aes_cbc_encrypt_key_guard. lia. }
  split; [exact Henc |]. split.
  - rewrite Henc. reflexivity.
  - intros c. rewrite decrypt_attr_always_None by assumption. discriminate.
Qed.

(** *** Decode failures *)

Lemma AES_new_error (key iv : bytes) (e : exn) :
  AES_new key iv = Err e -> is_ValueError e = true.
Proof.
  unfold AES_new. intros H.
  destruct (negb (AES_key_size_ok key)); [injection H as <-; reflexivity |].
  destruct (negb (Nat.eqb (length iv) 16)); [injection H as <- |]; easy.
Qed.

(** The byte-level decryption raises nothing but [ValueError]. *)
Lemma aes_cbc_decrypt_error (data key : bytes) (e : exn) :
  aes_cbc_decrypt D data key = Err e -> is_ValueError e = true.
Proof.
  unfold aes_cbc_decrypt. intros H.
  destruct (negb (Nat.eqb (length key) 32)); [injection H as <-; reflexivity |].
  destruct (makebyte (repeat 0%N 16)) as [iv |] eqn:Hiv; [| discriminate].
  cbn [bind] in H.
  destruct (AES_new key iv) as [cipher |] eqn:Hnew; cbn [bind] in H.
  - unfold AES_decrypt in H.
    destruct (negb (Nat.eqb (length data mod 16) 0));
      [injection H as <-; reflexivity | discriminate].
  - injection H as <-. eapply AES_new_error, Hnew.
Qed.

(** C6. For a key of in-range words, [decrypt_attr] raises exactly when the
    key is not 4 words long, and then with the contract error; under a
    4-word key every decode failure (malformed decryption, wrong prefix,
    JSON parse failure) yields [None]. *)
Theorem decrypt_attr_never_propagates (attr : bytes) (key : a32) :
  Forall word32 key ->
  (raises (decrypt_attr D attrs json_loads attr key) <-> length key <> 4%nat) /\
  (length key <> 4%nat ->
   decrypt_attr D attrs json_loads attr key
     = Err (ValueError "Key must be 4 integers long")) /\
  (length key = 4%nat -> decode_fails D attrs json_loads attr key ->
   decrypt_attr D attrs json_loads attr key = Ok None).
Proof.
  intros Hkey.
  assert (Hbody : length key = 4%nat ->
            (decode_fails D attrs json_loads attr key ->
             decrypt_attr D attrs json_loads attr key = Ok None) /\
            returns (decrypt_attr D attrs json_loads attr key)).
  { intros Hlen. unfold decrypt_attr, decode_fails.
    pass_guard Hlen.
    destruct (a32_to_str_returns key Hkey) as [k ->]. cbn [bind].
    destruct (aes_cbc_decrypt D attr k) as [decrypted | e] eqn:Hdec.
    - cbn [bind]. unfold pystr_eqb.
      destruct (list_eq_dec N.eq_dec _ MEGA_open) as [Hpre | Hpre].
      + destruct (json_loads _) as [d |]; cbn [try_except].
        * split; [intros [Hno | Hno]; [contradiction | discriminate]
                 | outcome].
        * split; [reflexivity | outcome].
      + cbn [try_except]. split; [reflexivity | outcome].
    - cbn. rewrite (aes_cbc_decrypt_error _ _ _ Hdec). cbn.
      split; [reflexivity | outcome]. }
  split; [| split].
  - split.
    + intros Hr Hlen. apply (raises_not_returns _ Hr), Hbody, Hlen.
    + intros Hlen. rewrite decrypt_attr_contract by assumption.
      outcome.
  - apply decrypt_attr_contract.
  - intros Hlen. apply Hbody, Hlen.
Qed.

End AttrFacts.

Lemma attr_roundtrip_raises_witness :
  encrypt_attr id_block pystr name_dumps (lit "a.txt") [0; 0; 0; 0]
    = Err (ValueError "Key must be 32 bytes long") /\
  (c <- encrypt_attr id_block pystr name_dumps (lit "a.txt") [0; 0; 0; 0] ;;
   decrypt_attr id_block pystr no_loads c [0; 0; 0; 0])
    = Err (ValueError "Key must be 32 bytes long") /\
  (forall c, decrypt_attr id_block pystr no_loads c [0; 0; 0; 0]
             <> Ok (Some (lit "a.txt"))).
Proof.
  apply attr_roundtrip_raises.
  - reflexivity.
  - apply zeros_word32.
  - repeat constructor; unfold latin1; cbn; lia.
Defined.

Lemma decrypt_attr_never_propagates_witness :
  decrypt_attr id_block pystr no_loads (repeat x00 16) [0; 0; 0; 0] = Ok None /\
  decrypt_attr id_block pystr no_loads (repeat x00 16) [0; 0; 0]
    = Err (ValueError "Key must be 4 integers long").
Proof.
  split.
  - apply (decrypt_attr_never_propagates id_block pystr no_loads
             (repeat x00 16) [0; 0; 0; 0] zeros_word32).
    + reflexivity.
    + exact I.
  - apply (decrypt_attr_never_propagates id_block pystr no_loads
             (repeat x00 16) [0; 0; 0]).
    + repeat constructor; unfold word32; lia.
    + discriminate.
Defined.

(** ** MPI decoding *)

(** The two digits [hexlify] prints for a byte read back as its value. *)
Lemma hex_digits_byte (b : byte) :
  hex_value (hex_digit (Z.shiftr (byte_to_Z b) 4))
    = Some (Z.shiftr (byte_to_Z b) 4) /\
  hex_value (hex_digit (Z.land (byte_to_Z b) 15))
    = Some (Z.land (byte_to_Z b) 15) /\
  Z.shiftr (byte_to_Z b) 4 * 16 + Z.land (byte_to_Z b) 15 = byte_to_Z b.
Proof. destruct b; vm_compute; auto. Qed.

Lemma int_digits_hexlify (s : bytes) (n : Z) :
  fold_left int_step (hexlify s) (Ok n)
  = Ok (fold_left (fun acc b => acc * 256 + byte_to_Z b) s n).
Proof.
  revert n. induction s as [| b s IH]; intros n.
  - reflexivity.
  - destruct (hex_digits_byte b) as (Hhi & Hlo & Hval).
    cbn [hexlify flat_map app fold_left].
    unfold int_step at 2 3. cbn [bind]. rewrite Hhi. cbn [bind]. rewrite Hlo.
    fold (hexlify s). rewrite IH. do 2 f_equal. lia.
Qed.

Lemma int_base16_hexlify (s : bytes) :
  s <> [] -> int_base16 (hexlify s) = Ok (big_endian s).
Proof.
  intros Hs. unfold int_base16.
  destruct (hexlify s) as [| c text] eqn:Hhex.
  - destruct s; [congruence | discriminate].
  - rewrite <- Hhex. apply (int_digits_hexlify s 0).
Qed.

(** C10. [mpi_to_int] fails with a [ValueError] on every buffer of at most
    2 bytes (the magnitude after the 2-byte header is empty, and the empty
    text is not an integer literal); on every longer buffer it returns the
    bytes after the header read as a big-endian unsigned integer. *)
Theorem mpi_to_int_partial (s : bytes) :
  ((length s <= 2)%nat ->
   mpi_to_int s = Err (ValueError "invalid literal for int() with base 16")) /\
  ((2 < length s)%nat -> mpi_to_int s = Ok (big_endian (skipn 2 s))).
Proof.
  unfold mpi_to_int. split; intros Hlen.
  - rewrite skipn_all2 by assumption. reflexivity.
  - apply int_base16_hexlify. intros Hnil.
    apply (f_equal (@length byte)) in Hnil. rewrite length_skipn in Hnil.
    cbn in Hnil. lia.
Qed.

Lemma mpi_to_int_partial_witness :
  mpi_to_int [x00; x08] = Err (ValueError "invalid literal for int() with base 16") /\
  mpi_to_int [x00; x08; x05] = Ok 5.
Proof.
  split.
  - apply (mpi_to_int_partial [x00; x08]). cbn. lia.
  - apply (mpi_to_int_partial [x00; x08; x05]). cbn. lia.
Defined.

(** ** Extended Euclid *)

Lemma euclid_zero (b : Z) : euclid 0 b = (b, 0, 1).
Proof. simp euclid. reflexivity. Qed.

Lemma euclid_step (a b : Z) :
  a <> 0 ->
  euclid a b
  = match euclid (b mod a) a with
    | (g, y, x) => (g, x - (b / a) * y, y)
    end.
Proof.
  intros Ha. rewrite euclid_equation_1 at 1.
  destruct (Z.eq_dec a 0) as [? | ?]; [contradiction | reflexivity].
Qed.

Lemma euclid_depth_zero (b : Z) : euclid_depth 0 b = 1%nat.
Proof. simp euclid_depth. reflexivity. Qed.

Lemma euclid_depth_step (a b : Z) :
  a <> 0 -> euclid_depth a b = S (euclid_depth (b mod a) a).
Proof.
  intros Ha. rewrite euclid_depth_equation_1 at 1.
  destruct (Z.eq_dec a 0) as [? | ?]; [contradiction | reflexivity].
Qed.

(** Induction along the recursion of [extended_gcd]. *)
Lemma euclid_ind (P : Z -> Z -> Prop) :
  (forall b, P 0 b) ->
  (forall a b, a <> 0 -> P (b mod a) a -> P a b) ->
  forall a b, P a b.
Proof.
  intros H0 Hstep a.
  induction a as [a IH] using (well_founded_induction
    (Wf_nat.well_founded_ltof _ Z.abs_nat)).
  intros b. destruct (Z.eq_dec a 0) as [-> | Ha]; [apply H0 |].
  apply Hstep; [assumption |]. apply IH.
  unfold Wf_nat.ltof. pose proof (Z.mod_bound_or b a). lia.
Qed.

(** [extended_gcd] returns the triple of the recursion when the frames
    suffice for its depth, and raises [RecursionError] otherwise. *)
Lemma extended_gcd_frames (frames : nat) (a b : Z) :
  extended_gcd frames a b
  = if (euclid_depth a b <=? frames)%nat then Ok (euclid a b)
    else Err RecursionError.
Proof.
  revert a b. induction frames as [| frames IH]; intros a b.
  - cbn [extended_gcd].
    destruct (Z.eq_dec a 0) as [-> | Ha].
    + rewrite euclid_depth_zero. reflexivity.
    + rewrite euclid_depth_step by assumption. reflexivity.
  - cbn [extended_gcd]. destruct (Z.eqb_spec a 0) as [-> | Ha].
    + rewrite euclid_depth_zero, euclid_zero. reflexivity.
    + rewrite IH, (euclid_depth_step a b), (euclid_step a b) by assumption.
      change (S (euclid_depth (b mod a) a) <=? S frames)%nat
        with (euclid_depth (b mod a) a <=? frames)%nat.
      destruct (euclid_depth (b mod a) a <=? frames)%nat; [| reflexivity].
      cbn [bind]. destruct (euclid (b mod a) a) as [[g y] x]. reflexivity.
Qed.

Lemma extended_gcd_returns (frames : nat) (a b : Z) :
  (euclid_depth a b <= frames)%nat ->
  extended_gcd frames a b = Ok (euclid a b).
Proof.
  intros H. rewrite extended_gcd_frames.
  apply Nat.leb_le in H. rewrite H. reflexivity.
Qed.

Lemma extended_gcd_overflow (frames : nat) (a b : Z) :
  (frames < euclid_depth a b)%nat ->
  extended_gcd frames a b = Err RecursionError.
Proof.
  intros H. rewrite extended_gcd_frames.
  apply Nat.leb_gt in H. rewrite H. reflexivity.
Qed.

Lemma modular_inverse_overflow (frames : nat) (a m : Z) :
  (frames < euclid_depth a m)%nat ->
  modular_inverse frames a m = Err RecursionError.
Proof.
  intros H. unfold modular_inverse.
  rewrite extended_gcd_overflow by assumption. reflexivity.
Qed.

(** Two division steps at least halve the first operand, so the depth is
    logarithmic in it. *)
Lemma euclid_depth_log2 (a b : Z) :
  0 < a -> (euclid_depth a b <= 2 * Z.to_nat (Z.log2 a) + 2)%nat.
Proof.
  revert b.
  induction a as [a IH] using (well_founded_induction (Z.lt_wf 0)).
  intros b Ha.
  rewrite euclid_depth_step by lia.
  pose proof (Z.mod_pos_bound b a Ha) as Hr.
  destruct (Z.eq_dec (b mod a) 0) as [Hr0 | Hr0].
  { rewrite Hr0, euclid_depth_zero. lia. }
  rewrite euclid_depth_step by assumption.
  set (r := b mod a) in *.
  pose proof (Z.mod_pos_bound a r ltac:(lia)) as Hs.
  pose proof (Z.div_mod a r ltac:(lia)) as Hdiv.
  assert (Hq : 1 <= a / r) by (apply Z.div_le_lower_bound; lia).
  assert (Hhalf : 2 * (a mod r) < a) by nia.
  pose proof (Z.log2_nonneg a) as Hla.
  destruct (Z.eq_dec (a mod r) 0) as [Hs0 | Hs0].
  { rewrite Hs0, euclid_depth_zero.
    assert (1 <= Z.log2 a) by (apply Z.log2_le_pow2; lia). lia. }
  set (s := a mod r) in *.
  assert (Hlog : Z.log2 s + 1 <= Z.log2 a).
  { pose proof (Z.log2_double s ltac:(lia)) as Hdbl.
    pose proof (Z.log2_le_mono (2 * s) a ltac:(lia)). lia. }
  pose proof (Z.log2_nonneg s) as Hls.
  specialize (IH s ltac:(lia) r ltac:(lia)). lia.
Qed.

(** For a non-negative operand and a positive modulus the depth is
    logarithmic in the modulus, whatever the operand. *)
Lemma euclid_depth_bound (a m : Z) :
  0 <= a -> 0 < m ->
  (euclid_depth a m <= 2 * Z.to_nat (Z.log2 m) + 3)%nat.
Proof.
  intros Ha Hm.
  destruct (Z.eq_dec a 0) as [-> | Hne]; [rewrite euclid_depth_zero; lia |].
  destruct (Z_lt_le_dec a m) as [Hlt | Hge].
  - pose proof (euclid_depth_log2 a m ltac:(lia)) as H.
    pose proof (Z.log2_le_mono a m ltac:(lia)).
    pose proof (Z.log2_nonneg a). lia.
  - rewrite euclid_depth_step by assumption.
    destruct (Z.eq_dec a m) as [-> | Hne'].
    + rewrite Z.mod_same, euclid_depth_zero by lia. lia.
    + rewrite Z.mod_small by lia.
      pose proof (euclid_depth_log2 m a Hm). lia.
Qed.

(** The Bezout identity holds for all integers. *)
Lemma euclid_bezout (a b : Z) :
  match euclid a b with
  | (g, x, y) => a * x + b * y = g
  end.
Proof.
  revert a b. apply euclid_ind.
  - intros b. rewrite euclid_zero. lia.
  - intros a b Ha IH. rewrite euclid_step by assumption.
    destruct (euclid (b mod a) a) as [[g y] x].
    pose proof (Z.div_mod b a Ha). nia.
Qed.

(** The first component is the gcd up to sign: it carries the sign of [a],
    or that of [b] when [a] is zero. *)
Lemma euclid_fst (a b : Z) :
  fst (fst (euclid a b))
  = if a <? 0 then - Z.gcd a b else if a =? 0 then b else Z.gcd a b.
Proof.
  revert a b. apply euclid_ind.
  - intros b. rewrite euclid_zero. reflexivity.
  - intros a b Ha IH. rewrite euclid_step by assumption.
    destruct (euclid (b mod a) a) as [[g y] x]. cbn [fst] in *.
    rewrite IH. rewrite (Z.gcd_mod b a Ha).
    pose proof (Z.mod_bound_or b a Ha) as Hbound.
    assert (Hdiv : b mod a = 0 -> Z.gcd a b = Z.abs a).
    { intros H0. rewrite <- (Z.gcd_mod b a Ha), H0. apply Z.gcd_0_l. }
    destruct (Z.ltb_spec a 0); destruct (Z.ltb_spec (b mod a) 0);
      destruct (Z.eqb_spec a 0); destruct (Z.eqb_spec (b mod a) 0);
      try reflexivity; try lia.
Qed.

Lemma euclid_gcd (a b : Z) :
  0 < a \/ (a = 0 /\ 0 <= b) ->
  fst (fst (euclid a b)) = Z.gcd a b.
Proof.
  intros H. rewrite euclid_fst.
  destruct (Z.ltb_spec a 0); [lia |].
  destruct (Z.eqb_spec a 0) as [-> | ?]; [| reflexivity].
  rewrite Z.gcd_0_l. lia.
Qed.

(** For a negative [a] the first component is never 1: the call raises,
    for want of frames or of an inverse. *)
Lemma modular_inverse_negative (frames : nat) (a m : Z) :
  a < 0 -> (euclid_depth a m <= frames)%nat ->
  modular_inverse frames a m
  = Err (Exception "modular inverse does not exist").
Proof.
  intros Ha Hd. unfold modular_inverse.
  rewrite extended_gcd_returns by assumption. cbn [bind].
  pose proof (euclid_fst a m) as Hg.
  destruct (euclid a m) as [[g x] y]. cbn [fst] in Hg.
  destruct (Z.ltb_spec a 0); [| lia].
  pose proof (Z.gcd_nonneg a m).
  destruct (Z.eqb_spec g 1); [lia | reflexivity].
Qed.

(** A call that raises [RecursionError] raises it again with fewer
    frames. *)
Lemma extended_gcd_fewer_frames (frames frames' : nat) (a b : Z) :
  (frames' <= frames)%nat ->
  extended_gcd frames a b = Err RecursionError ->
  extended_gcd frames' a b = Err RecursionError.
Proof.
  intros Hle H. rewrite extended_gcd_frames in *.
  destruct (Nat.leb_spec (euclid_depth a b) frames); [discriminate |].
  destruct (Nat.leb_spec (euclid_depth a b) frames'); [lia | reflexivity].
Qed.

(** C9 (as the code has it). For [0 < m] and [0 <= a] the recursion takes
    at most [2 * log2 m + 3] frames. When the frames suffice:
    for [0 <= a] and [gcd(a, m) = 1], [modular_inverse] returns [x] in
    [[0, m)] with [a * x = 1 (mod m)], and for [gcd(a, m) <> 1] it raises
    'modular inverse does not exist'. When they do not, it raises
    [RecursionError]. For all integers, [extended_gcd a b] either raises
    [RecursionError], for want of frames, or returns [(g, x, y)] with
    [a*x + b*y = g], and [g = gcd(a, b)] when [0 < a], or [a = 0] and
    [0 <= b]. *)
Theorem modular_inverse_nonneg (frames : nat) (a m : Z) :
  0 < m ->
  (0 <= a -> (euclid_depth a m <= 2 * Z.to_nat (Z.log2 m) + 3)%nat) /\
  ((euclid_depth a m <= frames)%nat ->
   (0 <= a -> Z.gcd a m = 1 ->
    exists x, modular_inverse frames a m = Ok x /\ 0 <= x < m
              /\ (a * x) mod m = 1 mod m) /\
   (Z.gcd a m <> 1 ->
    modular_inverse frames a m
    = Err (Exception "modular inverse does not exist"))) /\
  ((frames < euclid_depth a m)%nat ->
   modular_inverse frames a m = Err RecursionError) /\
  (forall b, match extended_gcd frames a b with
             | Ok (g, x, y) =>
                 a * x + b * y = g
                 /\ (0 < a \/ (a = 0 /\ 0 <= b) -> g = Z.gcd a b)
             | Err e => e = RecursionError /\ (frames < euclid_depth a b)%nat
             end).
Proof.
  intros Hm. split; [| split; [| split]].
  - intros Ha. apply euclid_depth_bound; assumption.
  - intros Hd. split.
    + intros Ha H1.
      assert (Hg : fst (fst (euclid a m)) = Z.gcd a m)
        by (apply euclid_gcd; lia).
      pose proof (euclid_bezout a m) as Hbez.
      unfold modular_inverse. rewrite extended_gcd_returns by assumption.
      cbn [bind].
      destruct (euclid a m) as [[g x] y]. cbn [fst] in Hg. subst g.
      rewrite H1. cbn [Z.eqb negb].
      destruct (Z.eqb_spec m 0); [lia |].
      exists (x mod m). split; [reflexivity |].
      split; [apply Z.mod_pos_bound; assumption |].
      rewrite Z.mul_mod_idemp_r by lia.
      replace (a * x) with (1 + (- y) * m) by lia.
      apply Z.mod_add. lia.
    + intros Hne. destruct (Z.lt_ge_cases a 0) as [Ha | Ha].
      * apply modular_inverse_negative; assumption.
      * assert (Hg : fst (fst (euclid a m)) = Z.gcd a m)
          by (apply euclid_gcd; lia).
        unfold modular_inverse. rewrite extended_gcd_returns by assumption.
        cbn [bind].
        destruct (euclid a m) as [[g x] y]. cbn [fst] in Hg. subst g.
        destruct (Z.eqb_spec (Z.gcd a m) 1); [contradiction | reflexivity].
  - apply modular_inverse_overflow.
  - intros b. rewrite extended_gcd_frames.
    destruct (Nat.leb_spec (euclid_depth a b) frames) as [Hd | Hd].
    + pose proof (euclid_bezout a b) as Hb.
      pose proof (euclid_gcd a b) as Hgb.
      destruct (euclid a b) as [[g x] y]. cbn [fst] in Hgb.
      split; assumption.
    + split; [reflexivity | assumption].
Qed.

Lemma modular_inverse_nonneg_witness :
  (exists x, modular_inverse 4 3 11 = Ok x /\ 0 <= x < 11
             /\ (3 * x) mod 11 = 1 mod 11) /\
  modular_inverse 3 2 4 = Err (Exception "modular inverse does not exist") /\
  modular_inverse 3 3 11 = Err RecursionError.
Proof.
  split; [| split].
  - apply (proj1 (proj2 (modular_inverse_nonneg 4 3 11 ltac:(lia))));
      [vm_compute; lia | lia | reflexivity].
  - apply (proj1 (proj2 (modular_inverse_nonneg 3 2 4 ltac:(lia))));
      [vm_compute; lia | discriminate].
  - apply (proj1 (proj2 (proj2 (modular_inverse_nonneg 3 3 11 ltac:(lia))))).
    vm_compute. lia.
Defined.

Example modular_inverse_3_11 : modular_inverse 4 3 11 = Ok 4.
Proof. reflexivity. Qed.

(** C9 (as stated) fails for a negative [a]: [-3] is invertible modulo 11
    (its inverse is 7) but [extended_gcd (-3) 11] returns [g = -1], so
    [modular_inverse] raises; and [extended_gcd 0 (-5)] returns [g = -5],
    not the gcd 5. It also fails on large operands: the Fibonacci numbers
    [F 1100] and [F 1101] are coprime, but the recursion on them is 1100
    frames deep and raises [RecursionError] with the 1000 frames of the
    default limit, and with any fewer. *)
Lemma modular_inverse_negative_counterexample :
  Z.gcd (-3) 11 = 1 /\ (-3 * 7) mod 11 = 1 /\
  extended_gcd 1000 (-3) 11 = Ok (-1, 4, 1) /\
  modular_inverse 1000 (-3) 11
    = Err (Exception "modular inverse does not exist") /\
  extended_gcd 1000 0 (-5) = Ok (-5, 0, 1) /\ Z.gcd 0 (-5) = 5 /\
  0 < fst (fib_pair 1100) < snd (fib_pair 1100) /\
  Z.gcd (fst (fib_pair 1100)) (snd (fib_pair 1100)) = 1 /\
  (forall frames, (frames <= 1000)%nat ->
     modular_inverse frames (fst (fib_pair 1100)) (snd (fib_pair 1100))
     = Err RecursionError).
Proof.
  split; [reflexivity |]. split; [reflexivity |].
  split; [reflexivity |]. split; [reflexivity |].
  split; [reflexivity |]. split; [reflexivity |].
  split; [vm_compute; split; reflexivity |].
  split; [vm_compute; reflexivity |].
  intros frames Hle. unfold modular_inverse.
  rewrite (extended_gcd_fewer_frames 1000 frames); [reflexivity | exact Hle |].
  vm_compute. reflexivity.
Qed.

(** ** Chunk planning *)

Lemma next_size_Z (s : positive) :
  Z.pos (next_size s)
  = if Z.pos s <? 0x100000 then Z.pos s + 0x20000 else Z.pos s.
Proof. unfold next_size. destruct (Z.pos s <? 0x100000); reflexivity. Qed.

Lemma get_chunks_from_step (p : Z) (s : positive) (size : Z) :
  p + Z.pos s < size ->
  get_chunks_from p s size
  = (p, Z.pos s) :: get_chunks_from (p + Z.pos s) (next_size s) size.
Proof.
  intros H. rewrite get_chunks_from_equation_1 at 1.
  destruct (Z_lt_dec (p + Z.pos s) size); [reflexivity | contradiction].
Qed.

Lemma get_chunks_from_final (p : Z) (s : positive) (size : Z) :
  ~ p + Z.pos s < size -> get_chunks_from p s size = [(p, size - p)].
Proof.
  intros H. rewrite get_chunks_from_equation_1.
  destruct (Z_lt_dec (p + Z.pos s) size); [contradiction | reflexivity].
Qed.

(** Induction along the iterations of the loop. *)
Lemma get_chunks_loop_ind (size : Z) (P : Z -> positive -> Prop) :
  (forall p s, ~ p + Z.pos s < size -> P p s) ->
  (forall p s, p + Z.pos s < size -> P (p + Z.pos s) (next_size s) -> P p s) ->
  forall p s, P p s.
Proof.
  intros Hfinal Hstep p.
  induction p as [p IH] using (well_founded_induction
    (Wf_nat.well_founded_ltof _ (fun p => Z.to_nat (size - p)))).
  intros s. destruct (Z_lt_dec (p + Z.pos s) size) as [Hlt | Hge].
  - apply Hstep; [assumption |]. apply IH. unfold Wf_nat.ltof. lia.
  - apply Hfinal, Hge.
Qed.

Lemma get_chunks_from_emits (size p : Z) (s : positive) :
  emits size p (Z.pos s) (get_chunks_from p s size).
Proof.
  revert p s. apply (get_chunks_loop_ind size); intros p s Hcond.
  - rewrite get_chunks_from_final by assumption. apply emits_final, Hcond.
  - intros IH. rewrite get_chunks_from_step by assumption.
    apply emits_step; [assumption |].
    rewrite <- next_size_Z. exact IH.
Qed.

Lemma emits_deterministic (size p s : Z) (l l' : list (Z * Z)) :
  emits size p s l -> emits size p s l' -> l = l'.
Proof.
  intros H. revert l'.
  induction H as [p s Hcond | p s l Hcond _ IH]; intros l' H';
    inversion H'; subst; try contradiction.
  - reflexivity.
  - f_equal. apply IH. assumption.
Qed.

Lemma get_chunks_from_tiles (size p : Z) (s : positive) :
  p <= size -> tiles p size (get_chunks_from p s size).
Proof.
  revert p s.
  apply (get_chunks_loop_ind size
           (fun p s => p <= size -> tiles p size (get_chunks_from p s size)));
    intros p s Hcond.
  - intros Hp. rewrite get_chunks_from_final by assumption.
    cbn. repeat split; lia.
  - intros IH Hp. rewrite get_chunks_from_step by assumption.
    cbn [tiles]. repeat split; [lia |]. apply IH. lia.
Qed.

Lemma tiles_total_length (lo hi : Z) (l : list (Z * Z)) :
  tiles lo hi l -> total_length l = hi - lo.
Proof.
  revert lo. induction l as [| [p n] l IH]; intros lo H.
  - cbn in *. lia.
  - destruct H as (_ & _ & H). unfold total_length in *.
    cbn [fold_right snd]. rewrite (IH _ H). lia.
Qed.

(** Before the final pair every chunk is non-empty, and the final pair is
    empty only for an empty transfer. *)
Lemma get_chunks_from_positive (size p : Z) (s : positive) :
  p < size -> Forall (fun pn => 0 < snd pn) (get_chunks_from p s size).
Proof.
  revert p s.
  apply (get_chunks_loop_ind size
           (fun p s => p < size ->
              Forall (fun pn => 0 < snd pn) (get_chunks_from p s size)));
    intros p s Hcond.
  - intros Hp. rewrite get_chunks_from_final by assumption.
    repeat constructor. cbn. lia.
  - intros IH Hp. rewrite get_chunks_from_step by assumption.
    constructor; [cbn; lia | apply IH; lia].
Qed.

(** C7. For every [0 <= size], the pairs [get_chunks size] yields are the
    run of the loop from offset 0 and chunk size 131072 (emit while
    [p + s < size], advance by [s], grow [s] by 131072 while it is below
    1048576, then one final pair [(p, size - p)]), they are the only such
    run, they cover the range from 0 to [size] in order with no gap and no
    overlap (every pair is non-empty unless [size] is 0), and their lengths
    sum to [size]. *)
Theorem get_chunks_covers (size : Z) :
  0 <= size ->
  emits size 0 131072 (get_chunks size) /\
  (forall l, emits size 0 131072 l -> l = get_chunks size) /\
  tiles 0 size (get_chunks size) /\
  (0 < size -> Forall (fun pn => 0 < snd pn) (get_chunks size)) /\
  total_length (get_chunks size) = size.
Proof.
  intros Hsize. unfold get_chunks.
  pose proof (get_chunks_from_emits size 0 0x20000) as Hemits.
  pose proof (get_chunks_from_tiles size 0 0x20000 Hsize) as Htiles.
  split; [exact Hemits |].
  split; [intros l Hl; eapply emits_deterministic; eassumption |].
  split; [exact Htiles |].
  split; [apply get_chunks_from_positive |].
  rewrite (tiles_total_length _ _ _ Htiles). lia.
Qed.

(** C8 (as the code has it). [get_chunks 1500000] yields exactly
    (0, 131072), (131072, 262144), (393216, 393216), (786432, 524288) and
    the final remainder (1310720, 189280); the pairs cover the range from 0
    to 1500000 with no gap and no overlap and their lengths sum to
    1500000. *)
Theorem get_chunks_1500000 :
  get_chunks 1500000 = plan_1500000 /\
  tiles 0 1500000 (get_chunks 1500000) /\
  total_length (get_chunks 1500000) = 1500000.
Proof.
  assert (H : get_chunks 1500000 = plan_1500000) by (vm_compute; reflexivity).
  rewrite H. repeat split; cbn; lia.
Qed.

(** C8 (as stated) fails: the listed boundaries are not a prefix of the
    plan; the second pair already differs, the chunk size growing by
    131072 to 262144 and not by 32768 to 163840. *)
Lemma listed_boundaries_counterexample :
  ~ (exists rest, get_chunks 1500000 = listed_boundaries ++ rest) /\
  nth_error (get_chunks 1500000) 1 = Some (131072, 262144) /\
  nth_error listed_boundaries 1 = Some (131072, 163840).
Proof.
  assert (H : get_chunks 1500000 = plan_1500000) by (vm_compute; reflexivity).
  rewrite H. repeat split. intros [rest Hrest]. discriminate Hrest.
Qed.

Lemma get_chunks_covers_witness :
  emits 300000 0 131072 (get_chunks 300000) /\
  (forall l, emits 300000 0 131072 l -> l = get_chunks 300000) /\
  tiles 0 300000 (get_chunks 300000) /\
  (0 < 300000 -> Forall (fun pn => 0 < snd pn) (get_chunks 300000)) /\
  total_length (get_chunks 300000) = 300000.
Proof. apply get_chunks_covers. lia. Defined.

(** * Further properties *)

(** ** Latin-1 texts and bytes *)

Lemma makebyte_makestring (b : bytes) : makebyte (makestring b) = Ok b.
Proof.
  induction b as [| x b IH]; cbn.
  - reflexivity.
  - rewrite Byte.of_to_N. fold (makestring b). rewrite IH. reflexivity.
Qed.

Lemma makestring_makebyte (s : pystr) (b : bytes) :
  makebyte s = Ok b -> makestring b = s.
Proof.
  revert b. induction s as [| c s IH]; intros b H; cbn in H.
  - injection H as <-. reflexivity.
  - destruct (Byte.of_N c) as [x |] eqn:Hx; [| discriminate].
    destruct (makebyte s) as [b' |]; [| discriminate].
    injection H as <-. unfold makestring in *. cbn [map].
    rewrite (IH b' eq_refl).
    apply Byte.to_of_N in Hx. rewrite Hx. reflexivity.
Qed.

Lemma makebyte_length (s : pystr) (b : bytes) :
  makebyte s = Ok b -> length b = length s.
Proof.
  intros H. apply makestring_makebyte in H. subst s.
  unfold makestring. rewrite length_map. reflexivity.
Qed.

(** X1. [makebyte] and [makestring] are inverse of each other on Latin-1
    texts: decoding then encoding gives the bytes back, encoding a text of
    code points up to 255 returns as many bytes, which decode to the text,
    and a text with a code point above 255 raises [UnicodeEncodeError]. *)
Theorem latin1_codec_roundtrip (b : bytes) (s : pystr) :
  makebyte (makestring b) = Ok b /\
  (Forall latin1 s ->
   exists b', makebyte s = Ok b' /\ length b' = length s
              /\ makestring b' = s) /\
  (~ Forall latin1 s -> makebyte s = Err UnicodeEncodeError).
Proof.
  split; [apply makebyte_makestring |]. split.
  - intros Hs. destruct (makebyte_returns s Hs) as [b' Hb].
    exists b'. split; [exact Hb |].
    split; [eapply makebyte_length | eapply makestring_makebyte]; eassumption.
  - apply makebyte_raises.
Qed.

Lemma latin1_codec_roundtrip_witness :
  (exists b', makebyte [65%N; 233%N] = Ok b'
              /\ length b' = length [65%N; 233%N]
              /\ makestring b' = [65%N; 233%N]) /\
  makebyte [65%N; 8364%N] = Err UnicodeEncodeError.
Proof.
  split.
  - apply (latin1_codec_roundtrip [] [65%N; 233%N]).
    repeat constructor; unfold latin1; lia.
  - apply (latin1_codec_roundtrip [] [65%N; 8364%N]).
    intros Hall. inversion Hall as [| ? ? _ Htl].
    inversion Htl as [| ? ? Hhd _]. unfold latin1 in Hhd. lia.
Defined.

(** ** Words and bytes *)

(** A value below [2 ^ k] has no bit in common with a multiple of
    [2 ^ k]: the bitwise or of the two is their sum. *)
Lemma lor_shiftl_add (a b k : Z) :
  0 <= k -> 0 <= b < 2 ^ k -> Z.lor (Z.shiftl a k) b = a * 2 ^ k + b.
Proof.
  intros Hk Hb.
  rewrite <- Z.shiftl_mul_pow2 by assumption.
  rewrite <- Z.lxor_lor, <- Z.add_nocarry_lxor; try reflexivity.
  all: apply Z.bits_inj'; intros n Hn;
    rewrite Z.land_spec, Z.bits_0;
    destruct (Z.lt_ge_cases n k);
    [ rewrite Z.shiftl_spec_low by assumption; reflexivity
    | rewrite <- (Z.mod_small b (2 ^ k)) by assumption;
      rewrite Z.mod_pow2_bits_high by lia; apply andb_false_r ].
Qed.

Lemma unpack_word_value (b0 b1 b2 b3 : byte) :
  unpack_word b0 b1 b2 b3
  = byte_to_Z b0 * 2 ^ 24 + byte_to_Z b1 * 2 ^ 16 + byte_to_Z b2 * 2 ^ 8
    + byte_to_Z b3.
Proof.
  pose proof (byte_to_Z_range b0). pose proof (byte_to_Z_range b1).
  pose proof (byte_to_Z_range b2). pose proof (byte_to_Z_range b3).
  unfold unpack_word.
  rewrite (lor_shiftl_add _ (byte_to_Z b3) 8) by lia.
  rewrite (lor_shiftl_add _ _ 16) by lia.
  rewrite (lor_shiftl_add _ _ 24) by lia. lia.
Qed.

Lemma byte_of_Z_eq (z : Z) (b : byte) :
  z mod 256 = byte_to_Z b -> byte_of_Z z = b.
Proof.
  intros H. rewrite <- (byte_of_to_Z b). unfold byte_of_Z at 1 2.
  rewrite H, (Z.mod_small (byte_to_Z b)) by apply byte_to_Z_range.
  reflexivity.
Qed.

Lemma pack_unpack_word (b0 b1 b2 b3 : byte) :
  pack_word (unpack_word b0 b1 b2 b3) = [b0; b1; b2; b3].
Proof.
  pose proof (byte_to_Z_range b0). pose proof (byte_to_Z_range b1).
  pose proof (byte_to_Z_range b2). pose proof (byte_to_Z_range b3).
  unfold pack_word. rewrite unpack_word_value.
  rewrite !Z.shiftr_div_pow2 by lia.
  repeat f_equal; apply byte_of_Z_eq.
  all: change (2 ^ 24) with 16777216; change (2 ^ 16) with 65536;
    change (2 ^ 8) with 256; Z.div_mod_to_equations; lia.
Qed.

Lemma a32_to_str_unpack_words (b : bytes) :
  (length b mod 4 = 0)%nat -> a32_to_str (unpack_words b) = Ok b.
Proof.
  induction b as [| x | x y | x y z | x y z t rest IH] using list_ind4;
    intros H; try discriminate.
  - reflexivity.
  - cbn [unpack_words a32_to_str].
    pose proof (unpack_word_word32 x y z t) as Hw.
    apply word32b_spec in Hw. rewrite Hw, IH.
    + cbn [bind]. rewrite pack_unpack_word. reflexivity.
    + cbn [length] in H.
      replace (S (S (S (S (length rest))))) with (length rest + 1 * 4)%nat
        in H by lia.
      rewrite Nat.Div0.mod_add in H. exact H.
Qed.

Lemma unpack_words_length (b : bytes) :
  (length b mod 4 = 0)%nat -> (4 * length (unpack_words b) = length b)%nat.
Proof.
  intros H. pose proof (a32_to_str_unpack_words b H) as Hb.
  apply a32_to_str_length in Hb. lia.
Qed.

Lemma str_to_a32_padded (b : bytes) :
  str_to_a32 (Bytes b)
  = Ok (unpack_words (b ++ repeat x00 (word_padding (length b)))).
Proof.
  unfold str_to_a32, word_padding. cbn [bind].
  pose proof (Nat.mod_upper_bound (length b) 4 ltac:(lia)) as Hr.
  destruct (Nat.eqb_spec (length b mod 4) 0) as [H0 | Hne].
  - rewrite H0. cbn [Nat.sub Nat.modulo repeat]. rewrite app_nil_r. reflexivity.
  - rewrite (Nat.mod_small (4 - length b mod 4)) by lia. reflexivity.
Qed.

Lemma padded_length (b : bytes) :
  (length (b ++ repeat x00 (word_padding (length b))) mod 4 = 0)%nat.
Proof.
  rewrite length_app, repeat_length. unfold word_padding.
  pose proof (Nat.mod_upper_bound (length b) 4 ltac:(lia)) as Hr.
  pose proof (Nat.div_mod_eq (length b) 4) as Hd.
  destruct (Nat.eq_dec (length b mod 4) 0) as [H0 | Hne].
  - rewrite H0. cbn [Nat.sub]. rewrite Nat.Div0.mod_same, Nat.add_0_r. exact H0.
  - rewrite (Nat.mod_small (4 - length b mod 4)) by lia.
    replace (length b + (4 - length b mod 4))%nat
      with ((length b / 4 + 1) * 4)%nat by lia.
    apply Nat.Div0.mod_mul.
Qed.

(** X2. Packing a list of 32-bit words and unpacking the bytes gives the
    words back: [a32_to_str] returns 4 bytes per word, on which
    [str_to_a32] returns the list itself. [a32_to_str] raises
    [struct.error] exactly when some word is outside the unsigned 32-bit
    range. *)
Theorem a32_str_roundtrip (a : a32) :
  (Forall word32 a ->
   exists b, a32_to_str a = Ok b /\ length b = (4 * length a)%nat
             /\ str_to_a32 (Bytes b) = Ok a) /\
  (~ Forall word32 a -> a32_to_str a = Err StructError).
Proof.
  split.
  - intros Ha. destruct (a32_to_str_returns a Ha) as [b Hb].
    exists b. split; [exact Hb |].
    split; [eapply a32_to_str_length | eapply str_to_a32_a32_to_str];
      eassumption.
  - apply a32_to_str_out_of_range.
Qed.

Lemma a32_str_roundtrip_witness :
  (exists b, a32_to_str [1; 4294967295] = Ok b
             /\ length b = 8%nat
             /\ str_to_a32 (Bytes b) = Ok [1; 4294967295]) /\
  a32_to_str [1; 4294967296] = Err StructError.
Proof.
  split.
  - apply (a32_str_roundtrip [1; 4294967295]).
    repeat constructor; unfold word32; lia.
  - apply (a32_str_roundtrip [1; 4294967296]).
    intros Hall. inversion Hall as [| ? ? _ Htl].
    inversion Htl as [| ? ? Hhd _]. unfold word32 in Hhd. lia.
Defined.

(** X3. Unpacking bytes and packing the words again gives the bytes back,
    followed by the zero bytes that fill the last word: [str_to_a32] on a
    byte buffer never raises, returns one in-range word per started group
    of 4 bytes, and [a32_to_str] of these words is the buffer right-padded
    with zeros to a multiple of 4 (the buffer itself when its length
    already is one). *)
Theorem str_a32_roundtrip (b : bytes) :
  exists ws,
    str_to_a32 (Bytes b) = Ok ws /\ Forall word32 ws /\
    (4 * length ws = length b + word_padding (length b))%nat /\
    (word_padding (length b) < 4)%nat /\
    a32_to_str ws = Ok (b ++ repeat x00 (word_padding (length b))).
Proof.
  eexists. split; [apply str_to_a32_padded |].
  split; [apply unpack_words_word32 |].
  split; [| split].
  - rewrite unpack_words_length by apply padded_length.
    rewrite length_app, repeat_length. reflexivity.
  - unfold word_padding. apply Nat.mod_upper_bound. lia.
  - apply a32_to_str_unpack_words, padded_length.
Qed.

(** ** Base64 *)

(** *** The alphabet *)

Lemma b64_value_some (c : byte) (v : Z) :
  b64_value c = Some v ->
  (byte_to_Z c =? 61) = false /\ 0 <= v < 64 /\ byte_to_Z c < 128.
Proof.
  unfold b64_value. cbv zeta.
  repeat match goal with
         | |- context [if ?t then _ else _] => destruct t eqn:?
         end; intros H; inversion H; subst; lia.
Qed.

Lemma b64_char_value (i : Z) :
  0 <= i < 64 -> b64_value (b64_char i) = Some i.
Proof.
  intros Hi. replace i with (Z.of_nat (Z.to_nat i)) by lia.
  assert (Hn : (Z.to_nat i < 64)%nat) by lia.
  generalize dependent (Z.to_nat i). intros n Hn.
  do 64 (destruct n as [| n]; [reflexivity |]). lia.
Qed.

Lemma b64_pad_value : b64_value b64_pad = None /\ byte_to_Z b64_pad = 61.
Proof. split; reflexivity. Qed.

(** *** One scanning step *)

Lemma a2b_base64_char (c : byte) (v : Z) (rest : bytes) (quad_pos : nat)
  (leftchar : Z) (pads : nat) (out : bytes) :
  b64_value c = Some v ->
  a2b_base64 (c :: rest) quad_pos leftchar pads out
  = match quad_pos with
    | O => a2b_base64 rest 1 v 0 out
    | S O =>
        a2b_base64 rest 2 (Z.land v 15) 0
          (out ++ [byte_of_Z (Z.lor (Z.shiftl leftchar 2) (Z.shiftr v 4))])
    | S (S O) =>
        a2b_base64 rest 3 (Z.land v 3) 0
          (out ++ [byte_of_Z (Z.lor (Z.shiftl leftchar 4) (Z.shiftr v 2))])
    | _ =>
        a2b_base64 rest 0 0 0
          (out ++ [byte_of_Z (Z.lor (Z.shiftl leftchar 6) v)])
    end.
Proof.
  intros Hv. destruct (b64_value_some c v Hv) as [Hpad _].
  cbn [a2b_base64]. rewrite Hpad, Hv. reflexivity.
Qed.

(** *** Three bytes, four characters *)

Lemma land_63 (a : Z) : Z.land a 63 = a mod 64.
Proof. change 63 with (Z.ones 6). apply Z.land_ones. lia. Qed.

Lemma land_15 (a : Z) : Z.land a 15 = a mod 16.
Proof. change 15 with (Z.ones 4). apply Z.land_ones. lia. Qed.

Lemma land_3 (a : Z) : Z.land a 3 = a mod 4.
Proof. change 3 with (Z.ones 2). apply Z.land_ones. lia. Qed.

Lemma group24_lor (x y z : Z) :
  0 <= y < 256 -> 0 <= z < 256 ->
  Z.lor (Z.shiftl x 16) (Z.lor (Z.shiftl y 8) z) = group24 x y z.
Proof.
  intros Hy Hz. unfold group24.
  rewrite (lor_shiftl_add y z 8) by lia.
  rewrite (lor_shiftl_add x _ 16) by lia. lia.
Qed.

Ltac arith := Z.div_mod_to_equations; lia.

Lemma sextet_range (n : Z) (k : Z) :
  0 <= n < 16777216 ->
  0 <= n / 262144 < 64 /\ 0 <= (n / 4096) mod 64 < 64
  /\ 0 <= (n / 64) mod 64 < 64 /\ 0 <= n mod 64 < 64.
Proof. intros H. repeat split; arith. Qed.

(** The decoder's recombination of the four sextets of a group. *)
Lemma decode_group (x y z : Z) :
  0 <= x < 256 -> 0 <= y < 256 -> 0 <= z < 256 ->
  let n := group24 x y z in
  let i0 := Z.shiftr n 18 in
  let i1 := Z.land (Z.shiftr n 12) 63 in
  let i2 := Z.land (Z.shiftr n 6) 63 in
  let i3 := Z.land n 63 in
  (0 <= i0 < 64 /\ 0 <= i1 < 64 /\ 0 <= i2 < 64 /\ 0 <= i3 < 64) /\
  Z.lor (Z.shiftl i0 2) (Z.shiftr i1 4) mod 256 = x /\
  Z.lor (Z.shiftl (Z.land i1 15) 4) (Z.shiftr i2 2) mod 256 = y /\
  Z.lor (Z.shiftl (Z.land i2 3) 6) i3 mod 256 = z.
Proof.
  intros Hx Hy Hz. cbv zeta. unfold group24.
  rewrite !land_63, !land_15, !land_3, !Z.shiftr_div_pow2 by lia.
  change (2 ^ 18) with 262144. change (2 ^ 12) with 4096.
  change (2 ^ 6) with 64. change (2 ^ 4) with 16. change (2 ^ 2) with 4.
  set (n := x * 65536 + y * 256 + z).
  assert (Hn : 0 <= n < 16777216) by (unfold n; lia).
  rewrite (lor_shiftl_add (n / 262144) _ 2) by arith.
  rewrite (lor_shiftl_add _ ((n / 64) mod 64 / 4) 4) by arith.
  rewrite (lor_shiftl_add _ (n mod 64) 6) by arith.
  change (2 ^ 2) with 4. change (2 ^ 4) with 16. change (2 ^ 6) with 64.
  unfold n in *. clear n. repeat split; arith.
Qed.

(** *** Decoding what was encoded *)

(** Induction three elements at a time. *)
Lemma list_ind3 {A : Type} (P : list A -> Prop) :
  P [] ->
  (forall x, P [x]) ->
  (forall x y, P [x; y]) ->
  (forall x y z rest, P rest -> P (x :: y :: z :: rest)) ->
  forall l, P l.
Proof.
  intros H0 H1 H2 H3.
  fix IH 1.
  intros [| x [| y [| z rest]]];
    [exact H0 | apply H1 | apply H2 | apply H3, IH].
Qed.

Lemma b64_pad_step (rest : bytes) (quad_pos : nat) (leftchar : Z)
  (pads : nat) (out : bytes) :
  a2b_base64 (b64_pad :: rest) quad_pos leftchar pads out
  = if (2 <=? quad_pos)%nat
    then if (4 <=? quad_pos + S pads)%nat
         then Ok out
         else a2b_base64 rest quad_pos leftchar (S pads) out
    else a2b_base64 rest quad_pos leftchar pads out.
Proof. reflexivity. Qed.

Lemma a2b_base64_b64encode (data out : bytes) :
  a2b_base64 (b64encode data) 0 0 0 out = Ok (out ++ data).
Proof.
  revert out.
  induction data as [| x | x y | x y z rest IH] using list_ind3; intros out.
  - cbn. rewrite app_nil_r. reflexivity.
  - pose proof (byte_to_Z_range x) as Hx.
    destruct (decode_group (byte_to_Z x) 0 0 Hx ltac:(lia) ltac:(lia))
      as ((H0 & H1 & _ & _) & Hb0 & _ & _).
    cbn [b64encode].
    replace (Z.shiftl (byte_to_Z x) 16) with (group24 (byte_to_Z x) 0 0)
      by (unfold group24; rewrite Z.shiftl_mul_pow2 by lia; lia).
    rewrite (a2b_base64_char _ _ _ 0) by (apply b64_char_value, H0).
    rewrite (a2b_base64_char _ _ _ 1) by (apply b64_char_value, H1).
    rewrite !b64_pad_step. cbn [Nat.leb Nat.add].
    rewrite (byte_of_Z_eq _ x) by exact Hb0. reflexivity.
  - pose proof (byte_to_Z_range x) as Hx. pose proof (byte_to_Z_range y) as Hy.
    destruct (decode_group (byte_to_Z x) (byte_to_Z y) 0 Hx Hy ltac:(lia))
      as ((H0 & H1 & H2 & _) & Hb0 & Hb1 & _).
    cbn [b64encode].
    replace (Z.lor (Z.shiftl (byte_to_Z x) 16) (Z.shiftl (byte_to_Z y) 8))
      with (group24 (byte_to_Z x) (byte_to_Z y) 0).
    2:{ rewrite <- (group24_lor _ _ 0) by lia. rewrite Z.lor_0_r. reflexivity. }
    rewrite (a2b_base64_char _ _ _ 0) by (apply b64_char_value, H0).
    rewrite (a2b_base64_char _ _ _ 1) by (apply b64_char_value, H1).
    rewrite (a2b_base64_char _ _ _ 2) by (apply b64_char_value, H2).
    rewrite !b64_pad_step. cbn [Nat.leb Nat.add].
    rewrite (byte_of_Z_eq _ x) by exact Hb0.
    rewrite (byte_of_Z_eq _ y) by exact Hb1.
    rewrite <- !app_assoc. reflexivity.
  - pose proof (byte_to_Z_range x) as Hx. pose proof (byte_to_Z_range y) as Hy.
    pose proof (byte_to_Z_range z) as Hz.
    destruct (decode_group (byte_to_Z x) (byte_to_Z y) (byte_to_Z z) Hx Hy Hz)
      as ((H0 & H1 & H2 & H3) & Hb0 & Hb1 & Hb2).
    cbn [b64encode]. rewrite group24_lor by assumption.
    rewrite (a2b_base64_char _ _ _ 0) by (apply b64_char_value, H0).
    rewrite (a2b_base64_char _ _ _ 1) by (apply b64_char_value, H1).
    rewrite (a2b_base64_char _ _ _ 2) by (apply b64_char_value, H2).
    rewrite (a2b_base64_char _ _ _ 3) by (apply b64_char_value, H3).
    rewrite (byte_of_Z_eq _ x) by exact Hb0.
    rewrite (byte_of_Z_eq _ y) by exact Hb1.
    rewrite (byte_of_Z_eq _ z) by exact Hb2.
    rewrite IH, <- !app_assoc. reflexivity.
Qed.

(** *** The URL-safe layer *)

Lemma sextets_range (data : bytes) : Forall sextet (sextets data).
Proof.
  induction data as [| x | x y | x y z rest IH] using list_ind3;
    cbn [sextets]; cbv zeta; unfold group24, sextet.
  - constructor.
  - pose proof (byte_to_Z_range x). repeat constructor; arith.
  - pose proof (byte_to_Z_range x). pose proof (byte_to_Z_range y).
    repeat constructor; arith.
  - pose proof (byte_to_Z_range x). pose proof (byte_to_Z_range y).
    pose proof (byte_to_Z_range z).
    repeat (constructor; [arith |]). exact IH.
Qed.

Lemma sextets_length (data : bytes) :
  length (sextets data) = ((4 * length data + 2) / 3)%nat.
Proof.
  induction data as [| x | x y | x y z rest IH] using list_ind3;
    try reflexivity.
  cbn [sextets length]. cbv zeta. cbn [length]. rewrite IH.
  replace (4 * S (S (S (length rest))) + 2)%nat
    with (4 * 3 + (4 * length rest + 2))%nat by lia.
  rewrite (Nat.div_add_l 4 3) by lia. lia.
Qed.

Lemma b64encode_sextets (data : bytes) :
  b64encode data
  = map b64_char (sextets data)
      ++ repeat b64_pad (pad_count (length (sextets data))).
Proof.
  induction data as [| x | x y | x y z rest IH] using list_ind3.
  - reflexivity.
  - pose proof (byte_to_Z_range x).
    cbn [b64encode sextets]. cbv zeta.
    replace (Z.shiftl (byte_to_Z x) 16) with (group24 (byte_to_Z x) 0 0)
      by (unfold group24; rewrite Z.shiftl_mul_pow2 by lia; lia).
    rewrite land_63, !Z.shiftr_div_pow2 by lia. reflexivity.
  - pose proof (byte_to_Z_range x). pose proof (byte_to_Z_range y).
    cbn [b64encode sextets]. cbv zeta.
    replace (Z.lor (Z.shiftl (byte_to_Z x) 16) (Z.shiftl (byte_to_Z y) 8))
      with (group24 (byte_to_Z x) (byte_to_Z y) 0).
    2:{ rewrite <- (group24_lor _ _ 0) by lia. rewrite Z.lor_0_r. reflexivity. }
    rewrite !land_63, !Z.shiftr_div_pow2 by lia. reflexivity.
  - pose proof (byte_to_Z_range x). pose proof (byte_to_Z_range y).
    pose proof (byte_to_Z_range z).
    cbn [b64encode sextets]. cbv zeta.
    rewrite group24_lor by assumption.
    rewrite !land_63, !Z.shiftr_div_pow2 by lia.
    rewrite IH. cbn [map app length].
    replace (pad_count (S (S (S (S (length (sextets rest)))))))
      with (pad_count (length (sextets rest))); [reflexivity |].
    unfold pad_count.
    replace (S (S (S (S (length (sextets rest))))))
      with (length (sextets rest) + 1 * 4)%nat by lia.
    rewrite Nat.Div0.mod_add. reflexivity.
Qed.

Lemma replace_flat_map (f : N -> pystr) (s : pystr) (search : N)
  (repl : pystr) :
  replace (flat_map f s) search repl
  = flat_map (fun c => replace (f c) search repl) s.
Proof.
  unfold replace. induction s as [| c s IH]; cbn.
  - reflexivity.
  - rewrite flat_map_app, IH. reflexivity.
Qed.

Lemma replace_as_flat_map (s : pystr) (search : N) (repl : pystr) :
  replace s search repl
  = flat_map (fun c => if N.eqb c search then repl else [c]) s.
Proof. reflexivity. Qed.

Lemma encode_chain (s : pystr) :
  fold_left (fun data sr => replace data (fst sr) (snd sr))
    [ (43%N, [45%N]); (47%N, [95%N]); (61%N, []) ] s
  = flat_map url_char s.
Proof.
  cbn [fold_left fst snd].
  rewrite (replace_as_flat_map s), !replace_flat_map.
  apply flat_map_ext. intros c. unfold url_char, replace.
  destruct (N.eqb_spec c 43) as [-> | H43]; [reflexivity |].
  cbn [flat_map app].
  destruct (N.eqb_spec c 47) as [-> | H47]; [reflexivity |].
  cbn [flat_map app].
  destruct (N.eqb_spec c 61); reflexivity.
Qed.

Lemma decode_chain (s : pystr) :
  fold_left (fun data sr => replace data (fst sr) (snd sr))
    [ (45%N, [43%N]); (95%N, [47%N]); (44%N, []) ] s
  = flat_map std_char s.
Proof.
  cbn [fold_left fst snd].
  rewrite (replace_as_flat_map s), !replace_flat_map.
  apply flat_map_ext. intros c. unfold std_char, replace.
  destruct (N.eqb_spec c 45) as [-> | H45]; [reflexivity |].
  cbn [flat_map app].
  destruct (N.eqb_spec c 95) as [-> | H95]; [reflexivity |].
  cbn [flat_map app].
  destruct (N.eqb_spec c 44); reflexivity.
Qed.

(** What the two chains do to the character of a sextet. *)
Lemma sextet_chars (i : Z) :
  sextet i ->
  url_char (Byte.to_N (b64_char i)) = [url_code i] /\
  std_char (url_code i) = [Byte.to_N (b64_char i)] /\
  url_safe (url_code i) = true /\
  (Byte.to_N (b64_char i) <=? 127)%N = true.
Proof.
  unfold sextet. intros Hi. replace i with (Z.of_nat (Z.to_nat i)) by lia.
  assert (Hn : (Z.to_nat i < 64)%nat) by lia.
  generalize dependent (Z.to_nat i). intros n Hn.
  do 64 (destruct n as [| n]; [repeat split; reflexivity |]). lia.
Qed.

Lemma flat_map_singletons {A B : Type} (f : A -> list B) (g : A -> B)
  (l : list A) :
  Forall (fun x => f x = [g x]) l -> flat_map f l = map g l.
Proof.
  induction 1 as [| x l Hx _ IH]; cbn; [reflexivity |].
  rewrite Hx, IH. reflexivity.
Qed.

Lemma url_char_pads (k : nat) : flat_map url_char (repeat 61%N k) = [].
Proof. induction k as [| k IH]; [reflexivity | exact IH]. Qed.

Lemma std_char_pads (k : nat) :
  flat_map std_char (repeat 61%N k) = repeat 61%N k.
Proof.
  induction k as [| k IH]; [reflexivity |].
  cbn [repeat flat_map]. rewrite IH. reflexivity.
Qed.

(** The encoder in closed form: one URL-safe character per sextet. *)
Lemma base64_url_encode_sextets (data : bytes) :
  base64_url_encode data = map url_code (sextets data).
Proof.
  unfold base64_url_encode. rewrite encode_chain, b64encode_sextets.
  unfold makestring. rewrite map_app, flat_map_app, map_map.
  rewrite map_repeat. change (Byte.to_N b64_pad) with 61%N.
  rewrite url_char_pads, app_nil_r, flat_map_concat_map, map_map, <- flat_map_concat_map.
  apply flat_map_singletons.
  eapply Forall_impl; [| apply sextets_range].
  intros i Hi. apply (sextet_chars i Hi).
Qed.

Lemma pad_slice (n : nat) :
  slice_from [61%N; 61%N] (Z.to_nat ((2 - Z.of_nat n * 3) mod 4))
  = repeat 61%N (pad_count n).
Proof.
  unfold pad_count, slice_from.
  pose proof (Nat.mod_upper_bound n 4 ltac:(lia)) as Hr.
  pose proof (Nat.div_mod_eq n 4) as Hn.
  assert (Hz : (2 - Z.of_nat n * 3) mod 4
               = (2 - Z.of_nat (n mod 4) * 3) mod 4).
  { replace (2 - Z.of_nat n * 3)
      with (2 - Z.of_nat (n mod 4) * 3 + (- 3 * Z.of_nat (n / 4)) * 4) by lia.
    apply Z.mod_add. lia. }
  rewrite Hz.
  destruct (n mod 4)%nat as [| [| [| [| r]]]]; try reflexivity. lia.
Qed.

(** The decoder on one URL-safe character per sextet: the standard
    alphabet and the padding are restored before the scan. *)
Lemma base64_url_decode_sextets (sx : list Z) :
  Forall sextet sx ->
  base64_url_decode (map url_code sx)
  = a2b_base64
      (map b64_char sx ++ repeat b64_pad (pad_count (length sx))) 0 0 0 [].
Proof.
  intros Hsx. unfold base64_url_decode. cbv zeta.
  rewrite length_map, pad_slice, decode_chain, flat_map_app.
  rewrite std_char_pads.
  rewrite flat_map_concat_map, map_map, <- flat_map_concat_map.
  rewrite (flat_map_singletons _ (fun i => Byte.to_N (b64_char i))).
  2:{ eapply Forall_impl; [| exact Hsx]. intros i Hi. apply (sextet_chars i Hi). }
  replace (map (fun i => Byte.to_N (b64_char i)) sx
             ++ repeat 61%N (pad_count (length sx)))
    with (makestring (map b64_char sx
                        ++ repeat b64_pad (pad_count (length sx)))).
  2:{ unfold makestring. rewrite map_app, map_map, map_repeat. reflexivity. }
  unfold b64decode.
  replace (forallb _ _) with true.
  - rewrite makebyte_makestring. reflexivity.
  - symmetry. apply forallb_forall. intros c Hc. unfold makestring in Hc.
    rewrite map_app in Hc. apply in_app_or in Hc. destruct Hc as [Hc | Hc].
    + rewrite map_map in Hc. apply in_map_iff in Hc. destruct Hc as [i [<- Hi]].
      rewrite Forall_forall in Hsx. apply (sextet_chars i (Hsx i Hi)).
    + rewrite map_repeat in Hc. apply repeat_spec in Hc. subst c. reflexivity.
Qed.

(** X4. [base64_url_encode] returns one URL-safe character (letter, digit,
    [-] or [_]) per started group of 6 bits: the text has
    [(4 * len + 2) / 3] characters, none of them [+], [/] or [=]. *)
Theorem base64_url_encode_alphabet (data : bytes) :
  length (base64_url_encode data) = ((4 * length data + 2) / 3)%nat /\
  forallb url_safe (base64_url_encode data) = true.
Proof.
  rewrite base64_url_encode_sextets, length_map, sextets_length.
  split; [reflexivity |].
  apply forallb_forall. intros c Hc. apply in_map_iff in Hc.
  destruct Hc as [i [<- Hi]].
  pose proof (sextets_range data) as Hr. rewrite Forall_forall in Hr.
  apply (sextet_chars i (Hr i Hi)).
Qed.

(** X5. Decoding inverts encoding: [base64_url_decode] of
    [base64_url_encode data] returns [data], for every byte buffer. *)
Theorem base64_url_roundtrip (data : bytes) :
  base64_url_decode (base64_url_encode data) = Ok data.
Proof.
  rewrite base64_url_encode_sextets.
  rewrite base64_url_decode_sextets by apply sextets_range.
  rewrite <- b64encode_sextets. apply (a2b_base64_b64encode data []).
Qed.

(** X6. A word array passed through [a32_to_base64] and [base64_to_a32]
    comes back unchanged, for every list of 32-bit words. *)
Theorem a32_base64_roundtrip (a : a32) :
  Forall word32 a ->
  (s <- a32_to_base64 a ;; base64_to_a32 s) = Ok a.
Proof.
  intros Ha. unfold a32_to_base64, base64_to_a32.
  destruct (a32_to_str_returns a Ha) as [b Hb]. rewrite Hb. cbn [bind].
  rewrite base64_url_encode_sextets.
  rewrite base64_url_decode_sextets by apply sextets_range.
  rewrite <- b64encode_sextets, (a2b_base64_b64encode b []). cbn [app bind].
  apply str_to_a32_a32_to_str, Hb.
Qed.

Lemma a32_base64_roundtrip_witness :
  (s <- a32_to_base64 [0x93C467E3; 0; 4294967295] ;; base64_to_a32 s)
  = Ok [0x93C467E3; 0; 4294967295].
Proof.
  apply a32_base64_roundtrip. repeat constructor; unfold word32; lia.
Defined.

(** *** Decoding any URL-safe text *)

Lemma url_safe_index (c : N) :
  url_safe c = true -> sextet (url_index c) /\ url_code (url_index c) = c.
Proof.
  intros H.
  assert (Hb : (c <= 122)%N).
  { unfold url_safe in H.
    repeat match type of H with
           | context [(?a <=? ?b)%N] => destruct (N.leb_spec a b)
           | context [(?a =? ?b)%N] => destruct (N.eqb_spec a b)
           end; cbn in H; try discriminate; lia. }
  replace c with (N.of_nat (N.to_nat c)) in * by lia.
  assert (Hn : (N.to_nat c <= 122)%nat) by lia. clear Hb.
  generalize dependent (N.to_nat c). intros n H Hn.
  do 123 (destruct n as [| n];
          [first [discriminate H | split; [unfold sextet; cbn; lia | reflexivity]] |]).
  lia.
Qed.

Lemma url_safe_sextets (s : pystr) :
  forallb url_safe s = true ->
  exists sx, Forall sextet sx /\ s = map url_code sx.
Proof.
  intros H. exists (map url_index s). rewrite forallb_forall in H. split.
  - apply Forall_forall. intros i Hi. apply in_map_iff in Hi.
    destruct Hi as [c [<- Hc]]. apply url_safe_index, H, Hc.
  - rewrite map_map. rewrite <- (map_id s) at 1. apply map_ext_in.
    intros c Hc. symmetry. apply url_safe_index, H, Hc.
Qed.

(** The scan of whole quads followed by at most one partial quad and its
    padding: it fails exactly on a single dangling character. *)
Lemma a2b_base64_sextets (sx : list Z) :
  Forall sextet sx ->
  forall out,
    ((length sx mod 4 = 1)%nat ->
     a2b_base64 (map b64_char sx ++ repeat b64_pad (pad_count (length sx)))
       0 0 0 out
     = Err (ValueError
              (invalid_length_message
                 ((length out + 3 * (length sx / 4)) / 3 * 4 + 1)))) /\
    ((length sx mod 4 <> 1)%nat ->
     exists b,
       a2b_base64 (map b64_char sx ++ repeat b64_pad (pad_count (length sx)))
         0 0 0 out
       = Ok (out ++ b)
       /\ length b = (3 * length sx / 4)%nat).
Proof.
  induction sx as [| i | i j | i j k | i j k l rest IH] using list_ind4;
    intros Hsx out.
  - split; [discriminate |]. intros _. exists [].
    split; [cbn; rewrite app_nil_r |]; reflexivity.
  - inversion Hsx as [| ? ? Hi _]; subst.
    split; [| intros H; exfalso; apply H; reflexivity]. intros _.
    cbn [map app length pad_count Nat.modulo Nat.divmod fst snd repeat].
    rewrite (a2b_base64_char _ _ _ 0) by (apply b64_char_value, Hi).
    cbn [a2b_base64 Nat.div Nat.divmod fst Nat.mul]. rewrite Nat.add_0_r.
    reflexivity.
  - inversion Hsx as [| ? ? Hi Hsx1]; subst.
    inversion Hsx1 as [| ? ? Hj _]; subst.
    split; [discriminate |]. intros _. eexists.
    change (pad_count (length [i; j])) with 2%nat.
    cbn [map app repeat].
    rewrite (a2b_base64_char _ _ _ 0) by (apply b64_char_value, Hi).
    rewrite (a2b_base64_char _ _ _ 1) by (apply b64_char_value, Hj).
    rewrite !b64_pad_step. cbn [Nat.leb Nat.add].
    split; reflexivity.
  - inversion Hsx as [| ? ? Hi Hsx1]; subst.
    inversion Hsx1 as [| ? ? Hj Hsx2]; subst.
    inversion Hsx2 as [| ? ? Hk _]; subst.
    split; [discriminate |]. intros _. eexists.
    change (pad_count (length [i; j; k])) with 1%nat.
    cbn [map app repeat].
    rewrite (a2b_base64_char _ _ _ 0) by (apply b64_char_value, Hi).
    rewrite (a2b_base64_char _ _ _ 1) by (apply b64_char_value, Hj).
    rewrite (a2b_base64_char _ _ _ 2) by (apply b64_char_value, Hk).
    rewrite !b64_pad_step. cbn [Nat.leb Nat.add].
    rewrite <- app_assoc. split; reflexivity.
  - inversion Hsx as [| ? ? Hi Hsx1]; subst.
    inversion Hsx1 as [| ? ? Hj Hsx2]; subst.
    inversion Hsx2 as [| ? ? Hk Hsx3]; subst.
    inversion Hsx3 as [| ? ? Hl Hrest]; subst.
    assert (Hlen4 : length (i :: j :: k :: l :: rest)
                    = (length rest + 1 * 4)%nat) by (cbn [length]; lia).
    assert (Hmod : (length (i :: j :: k :: l :: rest) mod 4
                    = length rest mod 4)%nat)
      by (rewrite Hlen4; apply Nat.Div0.mod_add).
    assert (Hdiv : (length (i :: j :: k :: l :: rest) / 4
                    = length rest / 4 + 1)%nat)
      by (rewrite Hlen4; apply Nat.div_add; lia).
    assert (Hpad : pad_count (length (i :: j :: k :: l :: rest))
                   = pad_count (length rest))
      by (unfold pad_count; rewrite Hmod; reflexivity).
    rewrite Hpad, Hmod, Hdiv. cbn [map app].
    rewrite (a2b_base64_char _ _ _ 0) by (apply b64_char_value, Hi).
    rewrite (a2b_base64_char _ _ _ 1) by (apply b64_char_value, Hj).
    rewrite (a2b_base64_char _ _ _ 2) by (apply b64_char_value, Hk).
    rewrite (a2b_base64_char _ _ _ 3) by (apply b64_char_value, Hl).
    match goal with
    | |- context [a2b_base64 _ 0 0 0 ?o] =>
        destruct (IH Hrest o) as [IHerr IHok]
    end.
    split.
    + intros H1. rewrite (IHerr H1). do 3 f_equal.
      rewrite !length_app. cbn [length].
      replace (length out + 1 + 1 + 1 + 3 * (length rest / 4))%nat
        with (length out + 3 * (length rest / 4 + 1))%nat by lia.
      reflexivity.
    + intros H1. destruct (IHok H1) as [b [Hb Hlen]].
      eexists. rewrite Hb, <- !app_assoc. split; [reflexivity |].
      cbn [app length]. rewrite Hlen.
      replace (3 * S (S (S (S (length rest)))))%nat
        with (3 * 4 + 3 * length rest)%nat by lia.
      rewrite (Nat.div_add_l 3 4) by lia. lia.
Qed.

(** X7. On a text made of URL-safe characters only, [base64_url_decode]
    raises exactly when the length is 1 more than a multiple of 4 (one
    dangling character, which no padding can complete), and the count in
    the message is the length of the text; otherwise it returns
    [3 * len / 4] bytes, rounded down. *)
Theorem base64_url_decode_url_safe (s : pystr) :
  forallb url_safe s = true ->
  ((length s mod 4 = 1)%nat ->
   base64_url_decode s
   = Err (ValueError (invalid_length_message (length s)))) /\
  ((length s mod 4 <> 1)%nat ->
   exists b, base64_url_decode s = Ok b /\ length b = (3 * length s / 4)%nat).
Proof.
  intros Hs. destruct (url_safe_sextets s Hs) as [sx [Hsx ->]].
  rewrite base64_url_decode_sextets, length_map by assumption.
  destruct (a2b_base64_sextets sx Hsx []) as [Herr Hok].
  split.
  - intros H. rewrite (Herr H). do 3 f_equal. cbn [length Nat.add].
    rewrite (Nat.mul_comm 3), Nat.div_mul by lia.
    pose proof (Nat.div_mod_eq (length sx) 4). lia.
  - intros H. destruct (Hok H) as [b [Hb Hlen]].
    exists b. split; assumption.
Qed.

Lemma base64_url_decode_url_safe_witness :
  ((length (lit "AQID-_8") mod 4 = 1)%nat ->
   base64_url_decode (lit "AQID-_8")
     = Err (ValueError (invalid_length_message (length (lit "AQID-_8"))))) /\
  ((length (lit "AQID-_8") mod 4 <> 1)%nat ->
   exists b, base64_url_decode (lit "AQID-_8") = Ok b
             /\ length b = (3 * length (lit "AQID-_8") / 4)%nat).
Proof. apply base64_url_decode_url_safe. reflexivity. Defined.

(** X8. A text with a character above 127 is refused: [base64_url_decode]
    raises the [ValueError] of the ASCII check, whatever else the text
    holds. *)
Theorem base64_url_decode_non_ascii (s : pystr) :
  Exists (fun c => (127 < c)%N) s ->
  base64_url_decode s
  = Err (ValueError "string argument should contain only ASCII characters").
Proof.
  intros H. unfold base64_url_decode. cbv zeta. rewrite decode_chain.
  unfold b64decode.
  replace (forallb _ _) with false; [reflexivity |].
  symmetry. apply not_true_is_false. intros Hall.
  rewrite forallb_forall in Hall.
  apply Exists_exists in H. destruct H as [c [Hc Hbig]].
  assert (Hin : In c (flat_map std_char
                        (s ++ slice_from [61%N; 61%N]
                           (Z.to_nat ((2 - Z.of_nat (length s) * 3) mod 4))))).
  { apply in_flat_map. exists c. split; [apply in_or_app; left; exact Hc |].
    unfold std_char.
    destruct (N.eqb_spec c 45); [lia |]. destruct (N.eqb_spec c 95); [lia |].
    destruct (N.eqb_spec c 44); [lia |]. left. reflexivity. }
  specialize (Hall c Hin). apply N.leb_le in Hall. lia.
Qed.

Lemma base64_url_decode_non_ascii_witness :
  base64_url_decode [65%N; 233%N; 65%N]
  = Err (ValueError "string argument should contain only ASCII characters").
Proof.
  apply base64_url_decode_non_ascii.
  right. left. reflexivity.
Defined.

(** ** The byte-level cipher wrappers *)

Section ByteCipherFacts.

Variable E D : bytes -> bytes -> bytes.

Lemma aes_cbc_encrypt_32 (data key : bytes) :
  length key = 32%nat ->
  aes_cbc_encrypt E data key = AES_encrypt E (key, repeat x00 16) data.
Proof.
  intros H. unfold aes_cbc_encrypt. pass_guard H.
  change (makebyte (repeat 0%N 16)) with (Ok (repeat x00 16)). cbn [bind].
  unfold AES_new, AES_key_size_ok. rewrite H. reflexivity.
Qed.

Lemma aes_cbc_decrypt_32 (data key : bytes) :
  length key = 32%nat ->
  aes_cbc_decrypt D data key = AES_decrypt D (key, repeat x00 16) data.
Proof.
  intros H. unfold aes_cbc_decrypt. pass_guard H.
  change (makebyte (repeat 0%N 16)) with (Ok (repeat x00 16)). cbn [bind].
  unfold AES_new, AES_key_size_ok. rewrite H. reflexivity.
Qed.

(** X9. [aes_cbc_encrypt] and [aes_cbc_decrypt] return exactly when the
    key is 32 bytes long and the data a whole number of 16-byte blocks.
    Any other key length, the 16 and 24 bytes of AES-128 and AES-192
    included, raises 'Key must be 32 bytes long', before the data is
    looked at; unaligned data under a 32-byte key raises the cipher's
    padding error. *)
Theorem aes_cbc_guards (data key : bytes) :
  (length key <> 32%nat ->
   aes_cbc_encrypt E data key = Err (ValueError "Key must be 32 bytes long") /\
   aes_cbc_decrypt D data key = Err (ValueError "Key must be 32 bytes long")) /\
  (length key = 32%nat -> (length data mod 16 <> 0)%nat ->
   aes_cbc_encrypt E data key
     = Err (ValueError "Data must be padded to 16 byte boundary in CBC mode") /\
   aes_cbc_decrypt D data key
     = Err (ValueError "Data must be padded to 16 byte boundary in CBC mode")) /\
  (length key = 32%nat -> (length data mod 16 = 0)%nat ->
   returns (aes_cbc_encrypt E data key) /\
   returns (aes_cbc_decrypt D data key)).
Proof.
  split; [| split].
  - intros H. split;
      [apply aes_cbc_encrypt_key_guard | apply aes_cbc_decrypt_key_guard];
      exact H.
  - intros Hk Hd. rewrite aes_cbc_encrypt_32, aes_cbc_decrypt_32 by assumption.
    split; [apply AES_encrypt_unpadded | apply AES_decrypt_unpadded];
      exact Hd.
  - intros Hk Hd. rewrite aes_cbc_encrypt_32, aes_cbc_decrypt_32 by assumption.
    unfold AES_encrypt, AES_decrypt. rewrite Hd. split; outcome.
Qed.

(** What makes [E] and [D] a block cipher: on 16-byte blocks [D] undoes
    [E], and [E] produces 16-byte blocks. *)
Hypothesis E_length :
  forall key blk, length blk = 16%nat -> length (E key blk) = 16%nat.
Hypothesis D_E : forall key blk, length blk = 16%nat -> D key (E key blk) = blk.

(** X10. Under a 32-byte key, on data that is a whole number of 16-byte
    blocks, [aes_cbc_encrypt] returns a ciphertext of the same length
    and [aes_cbc_decrypt] of that ciphertext returns the data. *)
Theorem aes_cbc_roundtrip (data key : bytes) :
  length key = 32%nat -> (length data mod 16 = 0)%nat ->
  exists c, aes_cbc_encrypt E data key = Ok c /\ length c = length data /\
            aes_cbc_decrypt D c key = Ok data.
Proof.
  intros Hk Hd.
  assert (Hlen : length data = (16 * (length data / 16))%nat).
  { pose proof (Nat.div_mod_eq (length data) 16). lia. }
  assert (Hnew : AES_new key (repeat x00 16) = Ok (key, repeat x00 16)).
  { unfold AES_new, AES_key_size_ok. rewrite Hk. reflexivity. }
  assert (Hok : AES_key_size_ok key = true).
  { unfold AES_key_size_ok. rewrite Hk. reflexivity. }
  pose proof (AES_decrypt_encrypt E D E_length D_E key (repeat x00 16) data
                Hok eq_refl Hd) as Hrt.
  rewrite Hnew in Hrt. cbn [bind] in Hrt.
  rewrite aes_cbc_encrypt_32 by assumption.
  destruct (AES_encrypt E (key, repeat x00 16) data) as [c |] eqn:Hc;
    cbn [bind] in Hrt; [| discriminate]. exists c. split; [reflexivity |]. split.
  - unfold AES_encrypt in Hc. rewrite Hd in Hc. cbn [negb Nat.eqb] in Hc.
    injection Hc as <-. cbn [fst snd].
    rewrite (cbc_encrypt_blocks_length E E_length _ key (repeat x00 16) data)
      by (reflexivity || assumption).
    symmetry. exact Hlen.
  - rewrite aes_cbc_decrypt_32 by assumption. exact Hrt.
Qed.

Lemma byte_xor_zero (x : byte) : byte_xor x x00 = x.
Proof.
  unfold byte_xor. change (byte_to_Z x00) with 0.
  rewrite Z.lxor_0_r. apply byte_of_to_Z.
Qed.

Lemma xor_block_zero (blk : bytes) (n : nat) :
  (length blk <= n)%nat -> xor_block blk (repeat x00 n) = blk.
Proof.
  revert n. induction blk as [| x blk IH]; intros [| n] H; cbn in *;
    try reflexivity; try lia.
  unfold xor_block in IH. rewrite IH by lia. rewrite byte_xor_zero.
  reflexivity.
Qed.

(** CBC is sequential: the ciphertext of the first [n1] blocks does not
    depend on what follows them. *)
Lemma cbc_encrypt_blocks_app (n1 n2 : nat) (key iv d1 d2 : bytes) :
  length d1 = (16 * n1)%nat ->
  exists iv',
    cbc_encrypt_blocks E (n1 + n2) key iv (d1 ++ d2)
    = cbc_encrypt_blocks E n1 key iv d1 ++ cbc_encrypt_blocks E n2 key iv' d2.
Proof.
  revert iv d1. induction n1 as [| n1 IH]; intros iv d1 H1.
  - destruct d1; [| discriminate]. exists iv. reflexivity.
  - cbn [Nat.add cbc_encrypt_blocks].
    rewrite firstn_app, skipn_app.
    replace (16 - length d1)%nat with 0%nat by lia.
    rewrite firstn_O, skipn_O, app_nil_r.
    destruct (IH (E key (xor_block (firstn 16 d1) iv)) (skipn 16 d1))
      as [iv' Hiv'].
    { rewrite length_skipn. lia. }
    exists iv'. rewrite Hiv', app_assoc. reflexivity.
Qed.

(** X11. With the IV fixed to zero the encryption is prefix-preserving:
    under a 32-byte key, the ciphertext of [d1 ++ d2] begins with the
    ciphertext of [d1] (both a whole number of blocks), and the
    ciphertext of a single block is the raw block encryption of that
    block. *)
Theorem aes_cbc_encrypt_prefix (d1 d2 key : bytes) :
  length key = 32%nat ->
  (length d1 mod 16 = 0)%nat -> (length d2 mod 16 = 0)%nat ->
  exists c1 c2,
    aes_cbc_encrypt E d1 key = Ok c1 /\
    aes_cbc_encrypt E (d1 ++ d2) key = Ok (c1 ++ c2) /\
    length c1 = length d1 /\
    (length d1 = 16%nat -> c1 = E key d1).
Proof.
  intros Hk H1 H2.
  pose proof (Nat.div_mod_eq (length d1) 16) as Hd1.
  pose proof (Nat.div_mod_eq (length d2) 16) as Hd2.
  rewrite !aes_cbc_encrypt_32 by assumption. unfold AES_encrypt.
  rewrite length_app, H1.
  replace ((length d1 + length d2) mod 16)%nat with 0%nat
    by (rewrite Nat.Div0.add_mod, H1, H2; reflexivity).
  cbn [negb Nat.eqb fst snd].
  replace ((length d1 + length d2) / 16)%nat
    with (length d1 / 16 + length d2 / 16)%nat.
  2:{ replace (length d1 + length d2)%nat
        with ((length d1 / 16 + length d2 / 16) * 16)%nat by lia.
      rewrite Nat.div_mul by lia. reflexivity. }
  destruct (cbc_encrypt_blocks_app (length d1 / 16) (length d2 / 16) key
              (repeat x00 16) d1 d2 ltac:(lia)) as [iv' Happ].
  eexists. eexists. split; [reflexivity |].
  split; [rewrite Happ; reflexivity |]. split.
  - rewrite (cbc_encrypt_blocks_length E E_length _ key (repeat x00 16) d1)
      by (reflexivity || lia). lia.
  - intros H16. rewrite H16. cbn [Nat.div Nat.divmod fst cbc_encrypt_blocks].
    rewrite firstn_all2 by lia. rewrite xor_block_zero by lia.
    apply app_nil_r.
Qed.

End ByteCipherFacts.

Lemma aes_cbc_guards_witness :
  (aes_cbc_encrypt id_block (repeat x01 16) (repeat x02 16)
     = Err (ValueError "Key must be 32 bytes long") /\
   aes_cbc_decrypt id_block (repeat x01 16) (repeat x02 16)
     = Err (ValueError "Key must be 32 bytes long")) /\
  (aes_cbc_encrypt id_block (repeat x01 15) (repeat x02 32)
     = Err (ValueError "Data must be padded to 16 byte boundary in CBC mode") /\
   aes_cbc_decrypt id_block (repeat x01 15) (repeat x02 32)
     = Err (ValueError "Data must be padded to 16 byte boundary in CBC mode")) /\
  (returns (aes_cbc_encrypt id_block (repeat x01 16) (repeat x02 32)) /\
   returns (aes_cbc_decrypt id_block (repeat x01 16) (repeat x02 32))).
Proof.
  split; [| split].
  - apply (aes_cbc_guards id_block id_block (repeat x01 16) (repeat x02 16)).
    discriminate.
  - apply (aes_cbc_guards id_block id_block (repeat x01 15) (repeat x02 32));
      [reflexivity | discriminate].
  - apply (aes_cbc_guards id_block id_block (repeat x01 16) (repeat x02 32));
      reflexivity.
Defined.

Lemma aes_cbc_roundtrip_witness :
  exists c, aes_cbc_encrypt id_block (repeat x01 16) (repeat x02 32) = Ok c /\
            length c = length (repeat x01 16) /\
            aes_cbc_decrypt id_block c (repeat x02 32) = Ok (repeat x01 16).
Proof.
  apply (aes_cbc_roundtrip id_block id_block (fun _ _ H => H)
           (fun _ _ _ => eq_refl)); reflexivity.
Defined.

Lemma aes_cbc_encrypt_prefix_witness :
  exists c1 c2,
    aes_cbc_encrypt id_block (repeat x01 16) (repeat x02 32) = Ok c1 /\
    aes_cbc_encrypt id_block (repeat x01 16 ++ repeat x03 16) (repeat x02 32)
      = Ok (c1 ++ c2) /\
    length c1 = length (repeat x01 16) /\
    (length (repeat x01 16) = 16%nat -> c1 = id_block (repeat x02 32) (repeat x01 16)).
Proof.
  apply (aes_cbc_encrypt_prefix id_block (fun _ _ H => H)); reflexivity.
Defined.

(** ** The word-level cipher wrappers *)

Section WordCipherFacts.

Variable E D : bytes -> bytes -> bytes.

(** X12. [aes_cbc_encrypt_a32] and [aes_cbc_decrypt_a32] return for no
    operands at all, and the exception is decided in this order: a key
    that is not 4 words long raises 'Key must be 4 integers long'; then a
    data word, then a key word outside the unsigned 32-bit range raises
    [struct.error]; every well-formed call raises 'Key must be 32 bytes
    long'. *)
Theorem word_cipher_never_returns (data key : a32) :
  (length key <> 4%nat ->
   aes_cbc_encrypt_a32 E data key = Err (ValueError "Key must be 4 integers long") /\
   aes_cbc_decrypt_a32 D data key = Err (ValueError "Key must be 4 integers long")) /\
  (length key = 4%nat -> ~ Forall word32 data ->
   aes_cbc_encrypt_a32 E data key = Err StructError /\
   aes_cbc_decrypt_a32 D data key = Err StructError) /\
  (length key = 4%nat -> Forall word32 data -> ~ Forall word32 key ->
   aes_cbc_encrypt_a32 E data key = Err StructError /\
   aes_cbc_decrypt_a32 D data key = Err StructError) /\
  (length key = 4%nat -> Forall word32 data -> Forall word32 key ->
   aes_cbc_encrypt_a32 E data key = Err (ValueError "Key must be 32 bytes long") /\
   aes_cbc_decrypt_a32 D data key = Err (ValueError "Key must be 32 bytes long")).
Proof.
  unfold aes_cbc_encrypt_a32, aes_cbc_decrypt_a32.
  split; [| split; [| split]].
  - intros H. apply Nat.eqb_neq in H. rewrite H. split; reflexivity.
  - intros H Hd. pass_guard H.
    rewrite (a32_to_str_out_of_range data Hd). split; reflexivity.
  - intros H Hd Hk. pass_guard H.
    destruct (a32_to_str_returns data Hd) as [d ->].
    rewrite (a32_to_str_out_of_range key Hk). split; reflexivity.
  - intros H Hd Hk. split;
      [apply aes_cbc_encrypt_a32_rejects | apply aes_cbc_decrypt_a32_rejects];
      assumption.
Qed.

(** X13. Under a 4-word key [encrypt_key] and [decrypt_key] return on the
    empty array only, and then the empty array: every non-empty input
    raises. *)
Theorem key_wrap_returns_only_empty (a key : a32) :
  length key = 4%nat ->
  (returns (encrypt_key E a key) <-> a = []) /\
  (returns (decrypt_key D a key) <-> a = []) /\
  encrypt_key E [] key = Ok [] /\ decrypt_key D [] key = Ok [].
Proof.
  intros Hkey.
  assert (Hraise : a <> [] ->
            raises (encrypt_key E a key) /\ raises (decrypt_key D a key)).
  { intros Hne. unfold encrypt_key, decrypt_key. pass_guard Hkey.
    destruct (aes_cbc_encrypt_a32_raises E (firstn 4 a) key) as [e He].
    destruct (aes_cbc_decrypt_a32_raises D (firstn 4 a) key) as [e' He'].
    split; eexists; apply sum_blocks_first_raises; eassumption. }
  pose proof (encrypt_key_empty E key Hkey) as He.
  pose proof (decrypt_key_empty D key Hkey) as Hd.
  repeat split; try assumption.
  - intros Hr. destruct a; [reflexivity |].
    exfalso. refine (raises_not_returns _ _ Hr). apply Hraise. discriminate.
  - intros ->. rewrite He. outcome.
  - intros Hr. destruct a; [reflexivity |].
    exfalso. refine (raises_not_returns _ _ Hr). apply Hraise. discriminate.
  - intros ->. rewrite Hd. outcome.
Qed.

End WordCipherFacts.

Lemma word_cipher_never_returns_witness :
  (aes_cbc_encrypt_a32 id_block [1; 2; 3; 4] [0; 0; 0]
     = Err (ValueError "Key must be 4 integers long") /\
   aes_cbc_decrypt_a32 id_block [1; 2; 3; 4] [0; 0; 0]
     = Err (ValueError "Key must be 4 integers long")) /\
  (aes_cbc_encrypt_a32 id_block [-1] [0; 0; 0; 0] = Err StructError /\
   aes_cbc_decrypt_a32 id_block [-1] [0; 0; 0; 0] = Err StructError) /\
  (aes_cbc_encrypt_a32 id_block [1; 2; 3; 4] [-1; 0; 0; 0] = Err StructError /\
   aes_cbc_decrypt_a32 id_block [1; 2; 3; 4] [-1; 0; 0; 0] = Err StructError) /\
  (aes_cbc_encrypt_a32 id_block [1; 2; 3; 4] [0; 0; 0; 0]
     = Err (ValueError "Key must be 32 bytes long") /\
   aes_cbc_decrypt_a32 id_block [1; 2; 3; 4] [0; 0; 0; 0]
     = Err (ValueError "Key must be 32 bytes long")).
Proof.
  assert (Hneg : forall rest, ~ Forall word32 (-1 :: rest)).
  { intros rest Hall. inversion Hall as [| ? ? Hhd _].
    unfold word32 in Hhd. lia. }
  assert (Hdata : Forall word32 [1; 2; 3; 4])
    by (repeat constructor; unfold word32; lia).
  split; [| split; [| split]].
  - apply (word_cipher_never_returns id_block id_block [1; 2; 3; 4] [0; 0; 0]).
    discriminate.
  - apply (proj1 (proj2 (word_cipher_never_returns id_block id_block [-1]
                           [0; 0; 0; 0]))); [reflexivity | apply Hneg].
  - apply (proj1 (proj2 (proj2 (word_cipher_never_returns id_block id_block
                                  [1; 2; 3; 4] [-1; 0; 0; 0]))));
      [reflexivity | exact Hdata | apply Hneg].
  - apply (word_cipher_never_returns id_block id_block [1; 2; 3; 4]
             [0; 0; 0; 0]); [reflexivity | exact Hdata | apply zeros_word32].
Defined.

Lemma key_wrap_returns_only_empty_witness :
  (returns (encrypt_key id_block [7; 8] [0; 0; 0; 0]) <-> [7; 8] = []) /\
  (returns (decrypt_key id_block [7; 8] [0; 0; 0; 0]) <-> [7; 8] = []) /\
  encrypt_key id_block [] [0; 0; 0; 0] = Ok [] /\
  decrypt_key id_block [] [0; 0; 0; 0] = Ok [].
Proof. apply key_wrap_returns_only_empty. reflexivity. Defined.

(** ** Identifier generation *)

Section IdFacts.

Variable rng : Type.
Variable randbelow : nat -> rng -> nat * rng.

(** The random source answers below its bound. *)
Hypothesis randbelow_lt :
  forall n g, (0 < n)%nat -> (fst (randbelow n g) < n)%nat.

Lemma choice_possible (g : rng) :
  exists c, choice rng randbelow possible g
            = Ok (c, snd (randbelow (length possible) g))
            /\ In c possible.
Proof.
  unfold choice.
  change possible with (65%N :: tl possible) at 1.
  cbv beta iota. unfold index.
  pose proof (randbelow_lt (length possible) g ltac:(cbn; lia)) as Hlt.
  destruct (nth_error possible (fst (randbelow (length possible) g)))
    as [c |] eqn:Hc.
  - exists c. split; [reflexivity |]. eapply nth_error_In, Hc.
  - apply nth_error_None in Hc. lia.
Qed.

Lemma make_id_loop_spec (n : nat) (text : pystr) (g : rng) :
  exists suffix g',
    make_id_loop rng randbelow n text g = Ok (text ++ suffix, g') /\
    length suffix = n /\ Forall (fun c => In c possible) suffix.
Proof.
  revert text g. induction n as [| n IH]; intros text g.
  - exists [], g. rewrite app_nil_r. repeat split. constructor.
  - cbn [make_id_loop].
    destruct (choice_possible g) as [c [-> Hc]]. cbn [bind fst snd].
    destruct (IH (text ++ [c]) (snd (randbelow (length possible) g)))
      as [suffix [g' [-> [Hlen Hall]]]].
    exists (c :: suffix), g'. rewrite <- app_assoc. cbn [app length].
    repeat split; [lia | constructor; assumption].
Qed.

(** X14. With a random source that answers below its bound, [make_id]
    never raises and returns a text of exactly [length] characters (none
    for a zero or negative [length]), each of them one of the 62 letters
    and digits. *)
Theorem make_id_alphanumeric (length : Z) (g : rng) :
  exists text g',
    make_id rng randbelow length g = Ok (text, g') /\
    Z.of_nat (List.length text) = Z.max 0 length /\
    Forall (fun c => In c possible) text.
Proof.
  unfold make_id.
  destruct (make_id_loop_spec (Z.to_nat length) [] g)
    as [suffix [g' [H [Hlen Hall]]]].
  exists suffix, g'. cbn [app] in H. repeat split; [exact H | lia | exact Hall].
Qed.

End IdFacts.

Lemma make_id_alphanumeric_witness :
  exists text g',
    make_id nat counter_randbelow 5 3%nat = Ok (text, g') /\
    Z.of_nat (List.length text) = Z.max 0 5 /\
    Forall (fun c => In c possible) text.
Proof.
  apply make_id_alphanumeric.
  intros n g Hn. cbn [counter_randbelow fst]. apply Nat.mod_upper_bound. lia.
Defined.

(** ** MPI decoding, further *)

Lemma fold_big_endian (s : bytes) (n : Z) :
  fold_left (fun acc b => acc * 256 + byte_to_Z b) s n
  = n * 256 ^ Z.of_nat (length s) + big_endian s.
Proof.
  unfold big_endian. revert n.
  induction s as [| b s IH]; intros n.
  - cbn. lia.
  - cbn [fold_left length]. rewrite IH, (IH (0 * 256 + byte_to_Z b)).
    rewrite Nat2Z.inj_succ, Z.pow_succ_r by lia. lia.
Qed.

Lemma big_endian_cons (b : byte) (s : bytes) :
  big_endian (b :: s) = byte_to_Z b * 256 ^ Z.of_nat (length s) + big_endian s.
Proof.
  unfold big_endian at 1. cbn [fold_left]. rewrite fold_big_endian. lia.
Qed.

Lemma big_endian_range (s : bytes) :
  0 <= big_endian s < 256 ^ Z.of_nat (length s).
Proof.
  induction s as [| b s IH].
  - cbn. lia.
  - rewrite big_endian_cons. cbn [length].
    rewrite Nat2Z.inj_succ, Z.pow_succ_r by lia.
    pose proof (byte_to_Z_range b). nia.
Qed.

Lemma byte_to_Z_inj (x y : byte) : byte_to_Z x = byte_to_Z y -> x = y.
Proof.
  intros H. rewrite <- (byte_of_to_Z x), <- (byte_of_to_Z y), H. reflexivity.
Qed.

Lemma big_endian_inj (s t : bytes) :
  length s = length t -> big_endian s = big_endian t -> s = t.
Proof.
  revert t. induction s as [| x s IH]; intros [| y t] Hlen H; try discriminate.
  - reflexivity.
  - injection Hlen as Hlen. rewrite !big_endian_cons, <- Hlen in H.
    pose proof (big_endian_range s). pose proof (big_endian_range t).
    rewrite <- Hlen in *.
    pose proof (byte_to_Z_range x). pose proof (byte_to_Z_range y).
    assert (byte_to_Z x = byte_to_Z y) by nia.
    f_equal; [apply byte_to_Z_inj; assumption | apply IH; [assumption | nia]].
Qed.

Lemma mpi_to_int_tail (s : bytes) :
  (2 < length s)%nat -> mpi_to_int s = Ok (big_endian (skipn 2 s)).
Proof.
  intros Hlen. unfold mpi_to_int. apply int_base16_hexlify. intros Hnil.
  apply (f_equal (@length byte)) in Hnil. rewrite length_skipn in Hnil.
  cbn in Hnil. lia.
Qed.

(** X15. On a buffer of more than 2 bytes [mpi_to_int] returns a value
    between 0 and [256 ^ (len - 2)] (excluded), whatever the two header
    bytes say. *)
Theorem mpi_to_int_range (s : bytes) :
  (2 < length s)%nat ->
  exists v, mpi_to_int s = Ok v /\ 0 <= v < 256 ^ (Z.of_nat (length s) - 2).
Proof.
  intros Hlen. exists (big_endian (skipn 2 s)).
  split; [apply mpi_to_int_tail, Hlen |].
  pose proof (big_endian_range (skipn 2 s)) as H.
  rewrite length_skipn in H.
  replace (Z.of_nat (length s - 2)) with (Z.of_nat (length s) - 2) in H by lia.
  exact H.
Qed.

Lemma mpi_to_int_range_witness :
  exists v, mpi_to_int [xff; xff; x01; x00] = Ok v
            /\ 0 <= v < 256 ^ (Z.of_nat (length [xff; xff; x01; x00]) - 2).
Proof. apply mpi_to_int_range. cbn. lia. Defined.

(** X16. [mpi_to_int] never reads the two header bytes and ignores leading
    zero bytes of the magnitude: buffers that differ only there decode to
    the same integer, so the declared bit length is not checked. *)
Theorem mpi_to_int_header_ignored (h1 h2 h1' h2' : byte) (zeros : nat)
  (t : bytes) :
  t <> [] ->
  mpi_to_int (h1 :: h2 :: repeat x00 zeros ++ t) = mpi_to_int (h1' :: h2' :: t).
Proof.
  intros Ht.
  assert (Hlen : (0 < length t)%nat) by (destruct t; [congruence | cbn; lia]).
  rewrite !mpi_to_int_tail by (cbn [length]; rewrite ?length_app; lia).
  cbn [skipn]. f_equal.
  induction zeros as [| n IH]; [reflexivity |].
  cbn [repeat app]. rewrite big_endian_cons, IH. cbn. lia.
Qed.

Lemma mpi_to_int_header_ignored_witness :
  mpi_to_int (x00 :: x10 :: repeat x00 3 ++ [x12; x34])
  = mpi_to_int (xff :: xff :: [x12; x34]).
Proof. apply mpi_to_int_header_ignored. discriminate. Defined.

(** X17. At a fixed length the decoding is injective: two buffers of the
    same length, longer than 2 bytes, that decode to the same integer have
    the same magnitude bytes. *)
Theorem mpi_to_int_injective (s t : bytes) :
  (2 < length s)%nat -> length s = length t ->
  mpi_to_int s = mpi_to_int t -> skipn 2 s = skipn 2 t.
Proof.
  intros Hs Hlen H.
  rewrite !mpi_to_int_tail in H by lia. injection H as H.
  apply big_endian_inj; [| exact H].
  rewrite !length_skipn. lia.
Qed.

Lemma mpi_to_int_injective_witness :
  skipn 2 [x00; x10; x12; x34] = skipn 2 [xff; xff; x12; x34].
Proof.
  apply mpi_to_int_injective; [cbn; lia | reflexivity | reflexivity].
Defined.

(** ** Extended Euclid, further *)

(** X18. The first component of [extended_gcd a b] is the gcd up to sign,
    for all integers: whenever the call returns, its absolute value is
    [gcd(a, b)], and it is negative exactly when [a < 0], or [a = 0] and
    [b < 0]. The only other outcome is [RecursionError], for want of
    frames. *)
Theorem extended_gcd_abs (frames : nat) (a b : Z) :
  match extended_gcd frames a b with
  | Ok (g, x, y) =>
      Z.abs g = Z.gcd a b /\ (g < 0 <-> a < 0 \/ (a = 0 /\ b < 0))
  | Err e => e = RecursionError /\ (frames < euclid_depth a b)%nat
  end.
Proof.
  rewrite extended_gcd_frames.
  destruct (Nat.leb_spec (euclid_depth a b) frames) as [Hd | Hd];
    [| split; [reflexivity | assumption]].
  pose proof (euclid_fst a b) as Hg.
  destruct (euclid a b) as [[g x] y]. cbn [fst] in Hg.
  pose proof (Z.gcd_nonneg a b) as Hnn.
  assert (Hz : Z.gcd a b = 0 -> a = 0) by apply Z.gcd_eq_0_l.
  assert (H0 : a = 0 -> Z.gcd a b = Z.abs b) by (intros ->; apply Z.gcd_0_l).
  destruct (Z.ltb_spec a 0); [| destruct (Z.eqb_spec a 0)]; subst g;
    split; lia.
Qed.

Lemma extended_gcd_abs_witness :
  match extended_gcd 1000 (-3) 11 with
  | Ok (g, x, y) =>
      Z.abs g = Z.gcd (-3) 11 /\ (g < 0 <-> -3 < 0 \/ (-3 = 0 /\ 11 < 0))
  | Err e => e = RecursionError /\ (1000 < euclid_depth (-3) 11)%nat
  end.
Proof. apply (extended_gcd_abs 1000 (-3) 11). Defined.

(** Whenever [modular_inverse] returns, the frames sufficed, the operand is
    non-negative and coprime with the modulus. *)
Lemma modular_inverse_Ok (frames : nat) (a m x : Z) :
  modular_inverse frames a m = Ok x ->
  (euclid_depth a m <= frames)%nat /\
  0 <= a /\ m <> 0 /\ Z.gcd a m = 1 /\ x mod m = x /\ (a * x) mod m = 1 mod m.
Proof.
  intros H.
  destruct (Nat.leb_spec (euclid_depth a m) frames) as [Hd | Hd].
  2:{ rewrite modular_inverse_overflow in H by assumption. discriminate. }
  split; [assumption |].
  destruct (Z.lt_ge_cases a 0) as [Ha | Ha].
  { rewrite modular_inverse_negative in H by assumption. discriminate. }
  unfold modular_inverse in H.
  rewrite extended_gcd_returns in H by assumption. cbn [bind] in H.
  pose proof (euclid_bezout a m) as Hbez.
  pose proof (euclid_fst a m) as Hg.
  destruct (euclid a m) as [[g x0] y]. cbn [fst] in Hg.
  destruct (Z.eqb_spec g 1) as [-> | Hne]; cbn [negb] in H; [| discriminate].
  destruct (Z.eqb_spec m 0) as [-> | Hm]; [discriminate |].
  injection H as <-.
  split; [assumption |]. split; [assumption |]. split.
  - destruct (Z.ltb_spec a 0); [lia |].
    destruct (Z.eqb_spec a 0) as [-> | Hne]; [| symmetry; exact Hg].
    rewrite Z.gcd_0_l. lia.
  - split; [apply Z.mod_mod; assumption |].
    rewrite Z.mul_mod_idemp_r by assumption.
    replace (a * x0) with (1 + (- y) * m) by lia.
    apply Z.mod_add. assumption.
Qed.

(** Inverses modulo [m] are unique among the residues. *)
Lemma inverse_unique (a m x y : Z) :
  0 < m -> 0 <= x < m -> 0 <= y < m ->
  (a * x) mod m = 1 mod m -> (a * y) mod m = 1 mod m -> x = y.
Proof.
  intros Hm Hx Hy Hax Hay.
  assert (H : (x * (a * y)) mod m = (y * (a * x)) mod m)
    by (f_equal; lia).
  rewrite <- (Z.mul_mod_idemp_r x), <- (Z.mul_mod_idemp_r y), Hax, Hay in H
    by lia.
  rewrite !Z.mul_mod_idemp_r, !Z.mul_1_r, !Z.mod_small in H by lia.
  exact H.
Qed.

(** X19. [modular_inverse] never returns a wrong answer: whenever it returns
    [x], the modulus is not 0, [a * x = 1 (mod m)], and for a positive
    modulus [x] is the one inverse among the residues [0 .. m - 1]. *)
Theorem modular_inverse_sound (frames : nat) (a m x : Z) :
  modular_inverse frames a m = Ok x ->
  m <> 0 /\ (a * x) mod m = 1 mod m /\
  (0 < m -> 0 <= x < m /\
            forall y, 0 <= y < m -> (a * y) mod m = 1 mod m -> y = x).
Proof.
  intros H.
  destruct (modular_inverse_Ok frames a m x H)
    as (_ & Ha & Hm & Hg & Hx & Hax).
  split; [assumption |]. split; [assumption |].
  intros Hpos.
  assert (Hrange : 0 <= x < m)
    by (rewrite <- Hx; apply Z.mod_pos_bound; assumption).
  split; [assumption |].
  intros y Hy Hay. eapply inverse_unique; eassumption.
Qed.

Lemma modular_inverse_sound_witness :
  11 <> 0 /\ (3 * 4) mod 11 = 1 mod 11 /\
  (0 < 11 -> 0 <= 4 < 11 /\
             forall y, 0 <= y < 11 -> (3 * y) mod 11 = 1 mod 11 -> y = 4).
Proof. apply (modular_inverse_sound 4 3 11 4). reflexivity. Defined.

(** A returned inverse, for a positive modulus, is a residue. *)
Lemma modular_inverse_residue (frames : nat) (a m x : Z) :
  0 < m -> modular_inverse frames a m = Ok x ->
  0 <= x < m /\ (a * x) mod m = 1 mod m.
Proof.
  intros Hm H.
  destruct (modular_inverse_Ok frames a m x H) as (_ & _ & _ & _ & Hx & Hax).
  split; [| assumption]. rewrite <- Hx. apply Z.mod_pos_bound. assumption.
Qed.

Lemma modular_inverse_coprime (frames : nat) (a m : Z) :
  0 <= a -> 0 < m -> Z.gcd a m = 1 -> (euclid_depth a m <= frames)%nat ->
  exists x, modular_inverse frames a m = Ok x.
Proof.
  intros Ha Hm Hg Hd. unfold modular_inverse.
  rewrite extended_gcd_returns by assumption. cbn [bind].
  pose proof (euclid_gcd a m ltac:(lia)) as Hfst.
  destruct (euclid a m) as [[g x] y]. cbn [fst] in Hfst. subst g.
  rewrite Hg. cbn [Z.eqb negb Pos.eqb].
  destruct (Z.eqb_spec m 0); [lia | eexists; reflexivity].
Qed.

Lemma modular_inverse_not_coprime (frames : nat) (a m : Z) :
  0 < m -> Z.gcd a m <> 1 -> (euclid_depth a m <= frames)%nat ->
  modular_inverse frames a m
  = Err (Exception "modular inverse does not exist").
Proof.
  intros Hm Hg Hd. destruct (modular_inverse frames a m) as [x | e] eqn:H.
  - apply modular_inverse_Ok in H. tauto.
  - unfold modular_inverse in H.
    rewrite extended_gcd_returns in H by assumption. cbn [bind] in H.
    destruct (euclid a m) as [[g x] y].
    destruct (negb (g =? 1)); [symmetry; exact H |].
    destruct (Z.eqb_spec m 0); [lia | discriminate].
Qed.

(** Reducing the operand first never deepens the recursion: for an operand
    above the modulus it saves exactly two frames. *)
Lemma euclid_depth_reduce (a m : Z) :
  0 <= a -> 0 < m ->
  (euclid_depth (a mod m) m <= euclid_depth a m)%nat /\
  (m < a -> euclid_depth a m = S (S (euclid_depth (a mod m) m))).
Proof.
  intros Ha Hm.
  destruct (Z_lt_le_dec a m) as [Hlt | Hge].
  - rewrite Z.mod_small by lia. split; [lia | intros; lia].
  - rewrite (euclid_depth_step a m) by lia.
    destruct (Z.eq_dec a m) as [-> | Hne].
    + rewrite Z.mod_same, euclid_depth_zero by lia. split; [lia | intros; lia].
    + rewrite (Z.mod_small m a) by lia.
      rewrite (euclid_depth_step m a) by lia. split; [lia | reflexivity].
Qed.

(** X20. The inverse depends on the operand modulo [m] only: for
    [0 <= a] and [0 < m], when the frames suffice for the call on
    [(a, m)], [modular_inverse (a mod m) m] is [modular_inverse a m],
    value or exception. The reduced call never needs more frames, and for
    [m < a] it needs exactly two fewer: in between the two calls differ,
    the reduced one returning where the other raises [RecursionError]. *)
Theorem modular_inverse_reduce (frames : nat) (a m : Z) :
  0 <= a -> 0 < m ->
  ((euclid_depth a m <= frames)%nat ->
   modular_inverse frames (a mod m) m = modular_inverse frames a m) /\
  (euclid_depth (a mod m) m <= euclid_depth a m)%nat /\
  (m < a -> euclid_depth a m = S (S (euclid_depth (a mod m) m))) /\
  (m < a -> Z.gcd a m = 1 -> frames = S (euclid_depth (a mod m) m) ->
   returns (modular_inverse frames (a mod m) m) /\
   modular_inverse frames a m = Err RecursionError).
Proof.
  intros Ha Hm.
  pose proof (Z.mod_pos_bound a m Hm) as Hr.
  destruct (euclid_depth_reduce a m Ha Hm) as [Hle Hsave].
  assert (Hgcd : Z.gcd (a mod m) m = Z.gcd a m).
  { rewrite Z.gcd_mod by lia. apply Z.gcd_comm. }
  split; [| split; [exact Hle | split; [exact Hsave |]]].
  - intros Hd.
    destruct (Z.eq_dec (Z.gcd a m) 1) as [Hg | Hg].
    + destruct (modular_inverse_coprime frames a m Ha Hm Hg Hd) as [x Hx].
      destruct (modular_inverse_coprime frames (a mod m) m ltac:(lia) Hm
                  ltac:(lia) ltac:(lia)) as [x' Hx'].
      rewrite Hx, Hx'. f_equal.
      destruct (modular_inverse_residue _ _ _ _ Hm Hx) as [Hrx Hax].
      destruct (modular_inverse_residue _ _ _ _ Hm Hx') as [Hrx' Hax'].
      apply (inverse_unique a m); try assumption.
      rewrite <- Z.mul_mod_idemp_l by lia. exact Hax'.
    + rewrite !modular_inverse_not_coprime by (assumption || lia).
      reflexivity.
  - intros Hlt Hg Hframes. specialize (Hsave Hlt). split.
    + destruct (modular_inverse_coprime frames (a mod m) m ltac:(lia) Hm
                  ltac:(lia) ltac:(lia)) as [x Hx].
      rewrite Hx. outcome.
    + apply modular_inverse_overflow. lia.
Qed.

Lemma modular_inverse_reduce_witness :
  modular_inverse 6 (25 mod 11) 11 = modular_inverse 6 25 11 /\
  (returns (modular_inverse 5 (25 mod 11) 11) /\
   modular_inverse 5 25 11 = Err RecursionError).
Proof.
  split.
  - apply (modular_inverse_reduce 6 25 11); [lia | lia |].
    vm_compute. lia.
  - apply (proj2 (proj2 (proj2 (modular_inverse_reduce 5 25 11
                                  ltac:(lia) ltac:(lia)))));
      [lia | reflexivity | reflexivity].
Defined.

(** X21. Inverting twice gives the operand back, reduced: for [0 <= a],
    [0 < m] and [gcd(a, m) = 1], with the [2 * log2 m + 3] frames that
    suffice for every operand, the inverse of [modular_inverse a m] is
    [a mod m]. *)
Theorem modular_inverse_involutive (frames : nat) (a m : Z) :
  0 <= a -> 0 < m -> Z.gcd a m = 1 ->
  (2 * Z.to_nat (Z.log2 m) + 3 <= frames)%nat ->
  (x <- modular_inverse frames a m ;; modular_inverse frames x m)
  = Ok (a mod m).
Proof.
  intros Ha Hm Hg Hframes.
  pose proof (euclid_depth_bound a m Ha Hm) as Hda.
  destruct (modular_inverse_coprime frames a m Ha Hm Hg ltac:(lia))
    as [x Hx].
  rewrite Hx. cbn [bind].
  destruct (modular_inverse_residue _ _ _ _ Hm Hx) as [Hrx Hax].
  assert (Hgx : Z.gcd x m = 1).
  { apply Z.bezout_1_gcd.
    exists a, (- ((a * x) / m) + (1 / m)).
    pose proof (Z.div_mod (a * x) m ltac:(lia)).
    pose proof (Z.div_mod 1 m ltac:(lia)). nia. }
  pose proof (euclid_depth_bound x m ltac:(lia) Hm) as Hdx.
  destruct (modular_inverse_coprime frames x m ltac:(lia) Hm Hgx ltac:(lia))
    as [y Hy].
  rewrite Hy. f_equal.
  destruct (modular_inverse_residue _ _ _ _ Hm Hy) as [Hry Hxy].
  apply (inverse_unique x m); try assumption.
  - apply Z.mod_pos_bound. assumption.
  - rewrite Z.mul_mod_idemp_r by lia. rewrite Z.mul_comm. exact Hax.
Qed.

Lemma modular_inverse_involutive_witness :
  (x <- modular_inverse 9 25 11 ;; modular_inverse 9 x 11) = Ok (25 mod 11).
Proof.
  apply modular_inverse_involutive; [lia | lia | reflexivity |].
  vm_compute. lia.
Defined.

(** X22. With a zero modulus [modular_inverse] never returns: the recursion
    is one frame deep for [a = 0] and two for any other [a], and when the
    frames suffice it raises [ZeroDivisionError] for [a = 1] and 'modular
    inverse does not exist' for every other [a]. *)
Theorem modular_inverse_zero_modulus (frames : nat) (a : Z) :
  modular_inverse frames a 0
  = if (frames <? (if (a =? 0)%Z then 1 else 2))%nat then Err RecursionError
    else if a =? 1 then Err ZeroDivisionError
    else Err (Exception "modular inverse does not exist").
Proof.
  assert (Hdepth : euclid_depth a 0 = if a =? 0 then 1%nat else 2%nat).
  { destruct (Z.eqb_spec a 0) as [-> | Ha].
    - apply euclid_depth_zero.
    - rewrite euclid_depth_step, Z.mod_0_l, euclid_depth_zero by assumption.
      reflexivity. }
  rewrite <- Hdepth.
  destruct (Nat.ltb_spec frames (euclid_depth a 0)) as [Hd | Hd].
  { apply modular_inverse_overflow, Hd. }
  unfold modular_inverse. rewrite extended_gcd_returns by assumption.
  cbn [bind].
  pose proof (euclid_fst a 0) as Hg.
  destruct (euclid a 0) as [[g x] y]. cbn [fst] in Hg.
  rewrite Z.gcd_0_r in Hg.
  destruct (Z.ltb_spec a 0); [| destruct (Z.eqb_spec a 0)].
  - destruct (Z.eqb_spec g 1); [lia |]. destruct (Z.eqb_spec a 1); [lia |].
    reflexivity.
  - subst. reflexivity.
  - subst g. destruct (Z.eqb_spec (Z.abs a) 1); destruct (Z.eqb_spec a 1);
      try lia; reflexivity.
Qed.

(** ** Chunk planning, further *)

Lemma chunk_size_next (j : nat) (s : positive) :
  Z.pos s = chunk_size j -> Z.pos (next_size s) = chunk_size (S j).
Proof.
  intros Hs. rewrite next_size_Z, Hs. unfold chunk_size.
  rewrite Nat2Z.inj_succ.
  destruct (Z.ltb_spec (Z.min ((Z.of_nat j + 1) * 131072) 1048576) 1048576);
    lia.
Qed.

(** X23. A transfer of at most 131072 bytes is planned as the single pair
    [(0, size)], also when [size] is zero or negative (the length is then
    not positive); every larger transfer has at least two chunks. *)
Theorem get_chunks_single (size : Z) :
  (size <= 131072 -> get_chunks size = [(0, size)]) /\
  (131072 < size -> (2 <= length (get_chunks size))%nat).
Proof.
  unfold get_chunks. split; intros H.
  - rewrite get_chunks_from_final by lia. f_equal. f_equal. lia.
  - rewrite get_chunks_from_step by lia. cbn [length].
    set (p := 0 + Z.pos 131072). set (s := next_size 131072).
    destruct (Z_lt_dec (p + Z.pos s) size).
    + rewrite get_chunks_from_step by assumption. cbn [length]. lia.
    + rewrite get_chunks_from_final by assumption. cbn [length]. lia.
Qed.

Lemma get_chunks_single_witness :
  get_chunks 1000 = [(0, 1000)] /\ (2 <= length (get_chunks 200000))%nat.
Proof.
  split.
  - apply (get_chunks_single 1000). lia.
  - apply (get_chunks_single 200000). lia.
Defined.

Lemma get_chunks_from_closed (size : Z) (p : Z) (s : positive) :
  forall j, p = chunk_offset j -> Z.pos s = chunk_size j ->
  let l := get_chunks_from p s size in
  (forall k, (S k < length l)%nat ->
     nth_error l k = Some (chunk_offset (j + k), chunk_size (j + k))) /\
  (exists n, length l = S n /\
     nth_error l n = Some (chunk_offset (j + n), size - chunk_offset (j + n))).
Proof.
  revert p s.
  apply (get_chunks_loop_ind size
    (fun p s => forall j, p = chunk_offset j -> Z.pos s = chunk_size j ->
       let l := get_chunks_from p s size in
       (forall k, (S k < length l)%nat ->
          nth_error l k = Some (chunk_offset (j + k), chunk_size (j + k))) /\
       (exists n, length l = S n /\
          nth_error l n
          = Some (chunk_offset (j + n), size - chunk_offset (j + n)))));
    intros p s Hcond.
  - intros j Hp Hs. rewrite get_chunks_from_final by assumption. cbn zeta.
    split.
    + intros k Hk. cbn in Hk. lia.
    + exists 0%nat. rewrite Nat.add_0_r, <- Hp. split; reflexivity.
  - intros IH j Hp Hs. rewrite get_chunks_from_step by assumption. cbn zeta.
    destruct (IH (S j)) as [IHk [n [Hlen Hlast]]].
    { cbn [chunk_offset]. lia. }
    { apply chunk_size_next, Hs. }
    split.
    + intros [| k] Hk.
      * rewrite Nat.add_0_r, <- Hp, <- Hs. reflexivity.
      * cbn [nth_error]. cbn [length] in Hk.
        rewrite IHk by lia.
        replace (j + S k)%nat with (S j + k)%nat by lia. reflexivity.
    + exists (S n). cbn [length nth_error]. rewrite Hlen, Hlast.
      split; [reflexivity |].
      replace (j + S n)%nat with (S j + n)%nat by lia. reflexivity.
Qed.

(** X24. The plan has a closed form that does not depend on the transfer
    size except for its end: every pair but the last is
    [(chunk_offset k, chunk_size k)] (lengths 128 KiB, 256 KiB, ... up to
    1 MiB, then 1 MiB), and the last pair starts at the next such offset
    and takes what remains. *)
Theorem get_chunks_closed_form (size : Z) :
  (forall k, (S k < length (get_chunks size))%nat ->
     nth_error (get_chunks size) k = Some (chunk_offset k, chunk_size k)) /\
  (exists n, length (get_chunks size) = S n /\
     nth_error (get_chunks size) n
     = Some (chunk_offset n, size - chunk_offset n)).
Proof.
  exact (get_chunks_from_closed size 0 131072 0%nat eq_refl eq_refl).
Qed.

Lemma get_chunks_closed_form_witness :
  nth_error (get_chunks 1500000) 3 = Some (chunk_offset 3, chunk_size 3).
Proof.
  apply (get_chunks_closed_form 1500000). vm_compute. lia.
Defined.

Lemma get_chunks_from_bounded (size : Z) (p : Z) (s : positive) :
  (exists j, Z.pos s = chunk_size j) ->
  Forall (fun pn => snd pn <= 1048576) (get_chunks_from p s size).
Proof.
  revert p s.
  apply (get_chunks_loop_ind size
    (fun p s => (exists j, Z.pos s = chunk_size j) ->
       Forall (fun pn => snd pn <= 1048576) (get_chunks_from p s size)));
    intros p s Hcond.
  - intros [j Hs]. rewrite get_chunks_from_final by assumption.
    constructor; [| constructor]. cbn [snd]. unfold chunk_size in Hs. lia.
  - intros IH [j Hs]. rewrite get_chunks_from_step by assumption.
    constructor.
    + cbn [snd]. unfold chunk_size in Hs. lia.
    + apply IH. exists (S j). apply chunk_size_next, Hs.
Qed.

(** X25. No chunk is longer than 1 MiB (1048576 bytes), whatever the
    transfer size, and for a positive size every chunk is between 1 byte
    and 1 MiB long. *)
Theorem get_chunks_bounded (size : Z) :
  Forall (fun pn => snd pn <= 1048576) (get_chunks size) /\
  (0 < size -> Forall (fun pn => 1 <= snd pn <= 1048576) (get_chunks size)).
Proof.
  assert (Hb : Forall (fun pn => snd pn <= 1048576) (get_chunks size))
    by (apply get_chunks_from_bounded; exists 0%nat; reflexivity).
  split; [exact Hb |]. intros Hsize.
  pose proof (get_chunks_from_positive size 0 131072 Hsize) as Hp.
  fold (get_chunks size) in Hp.
  rewrite Forall_forall in *. intros pn Hin.
  specialize (Hb pn Hin). specialize (Hp pn Hin). lia.
Qed.

Lemma get_chunks_bounded_witness :
  Forall (fun pn => 1 <= snd pn <= 1048576) (get_chunks 20000000).
Proof. apply (get_chunks_bounded 20000000). lia. Defined.
